(** * Verification of the directive validator (package [directive])

    A shallow embedding of [directive.go]: the document model, the FQFN
    resolver, [Validate], [validateSteps], [ParseWith] and the problem
    collector, followed by the properties of the validation engine.

    Conventions of the embedding.
    - A Go [string] is a [string]; a Go [int] is a [Z] (the only arithmetic
      on it, [NumberOfSeconds], has its 64-bit wrap-around written out), a
      position in a slice a [nat].
    - A Go map is a [gmap].  Go does not specify the order in which [range]
      yields the entries of a map, so that order is a parameter
      ([MapOrder]) wherever the code ranges over a map and the order can be
      observed.
    - A slice whose nil-ness the code tests and distinguishes from the empty
      slice ([Executable.Group]) is an [option (list _)]; the others are
      lists ([x != nil && len(x) > 0] is [len(x) > 0]).
    - A pointer that may be nil ([*ForEach], [*FnOnErr]) is an [option].
    - The problem collector [*problems] is shared by every call of a
      validation run: it is the state of the monad [M].
    - A method with a pointer receiver returns the receiver as it is after
      the call, next to its result. *)

From Stdlib Require Import ZArith Lia Ascii String.
From stdpp Require Import base option list strings pretty gmap fin_maps.

Local Open Scope string_scope.
Local Open Scope list_scope.

(** ** Schema model *)

(** Modelled from the spec: the struct [Runnable] is declared in a file of
    package [directive] that is not part of the sources at hand; the
    validator reads its [Name] and [Namespace] only. *)
Module Runnable.
Record t := mk { Name : string; Namespace : string }.
End Runnable.

(** [Alias]: the parsed version of an entry of [With]. *)
Module Alias.
Record t := mk { Key : string; Alias : string }.
(** The zero value [Alias{}] that [make([]Alias, n)] fills a slice with. *)
Definition zero : t := mk "" "".
End Alias.

Module FnOnErr.
Record t := mk { Code : gmap Z string; Any : string; Other : string }.
End FnOnErr.

Module CallableFn.
Record t := mk {
  Fn : string;
  As : string;
  With : list string;
  OnErr : option FnOnErr.t;
  DesiredState : list Alias.t
}.
End CallableFn.

Module ForEach.
Record t := mk { In : string; Fn : CallableFn.t; As : string }.
End ForEach.

(** [Executable] embeds a [CallableFn] ([e.Fn] is [e.CallableFn.Fn]). *)
Module Executable.
Record t := mk {
  CallableFn : CallableFn.t;
  Group : option (list CallableFn.t);
  ForEach : option ForEach.t
}.
End Executable.

(** The field [Type] is [Type_] here. *)
Module Input.
Record t := mk { Type_ : string; Method : string; Resource : string }.
End Input.

Module Handler.
Record t := mk {
  Input : Input.t;
  Steps : list Executable.t;
  Response : string
}.
End Handler.

Module ScheduleEvery.
Record t := mk { Seconds : Z; Minutes : Z; Hours : Z; Days : Z }.
End ScheduleEvery.

Module Schedule.
Record t := mk {
  Name : string;
  Every : ScheduleEvery.t;
  State : gmap string string;
  Steps : list Executable.t
}.
End Schedule.

Module Directive.
Record t := mk {
  Identifier : string;
  AppVersion : string;
  AtmoVersion : string;
  Runnables : list Runnable.t;
  Handlers : list Handler.t;
  Schedules : list Schedule.t;
  fqfns : option (gmap string string)
}.
End Directive.

Definition InputTypeRequest : string := "request".
Definition NamespaceDefault : string := "default".

Inductive executableType := executableTypeHandler | executableTypeSchedule.

#[global] Instance executableType_eq_dec : EqDecision executableType.
Proof. solve_decision. Defined.

Definition executableType_string (t : executableType) : string :=
  match t with
  | executableTypeHandler => "handler"
  | executableTypeSchedule => "schedule"
  end.

(** ** The environment of a run *)

(** The order in which [range] yields the entries of a per-code map in one
    run: any enumeration of the map's entries. The properties below hold
    for every order; two runs may differ in it. *)
Record MapOrder := {
  range_order : gmap Z string → list (Z * string);
  range_order_perm : ∀ m, range_order m ≡ₚ map_to_list m
}.

Program Definition order_forward : MapOrder :=
  {| range_order := map_to_list |}.
Next Obligation. done. Qed.


(** ** Defects and their rendering *)

(** One constructor per [problems.add] site of the source, carrying the
    arguments of its format string; [Error] is the text the Go [error]
    carries. *)
Inductive problem :=
| IdentifierMissing
| AppVersionInvalid
| AtmoVersionInvalid
| NoFunctions
| DuplicateFn (namespaced : string)
| FnMissingName (i : nat)
| FnMissingNamespace (i : nat)
| HandlerMissingType (resource : string)
| HandlerMissingResource (resource : string)
| HandlerMissingMethod (resource : string)
| HandlerMissingSteps (resource : string)
| HandlerGroupLast (name : string)
| HandlerResponseUnknown (name response : string)
| ScheduleNoName (i : nat)
| ScheduleMissingSteps (name : string)
| ScheduleNoEvery (name : string)
| StepBadShape (j : nat) (t : executableType) (name : string)
| FnNotExist (t : executableType) (name : string) (j : nat) (fn : string)
| InvalidWith (t : executableType) (name : string) (j : nat) (err : string)
| KeyNotAvailable (t : executableType) (name : string) (j : nat) (key : string)
| OnErrAnyWithCodes (t : executableType) (name : string) (j : nat)
| OnErrAnyInvalid (t : executableType) (name : string) (j : nat) (any : string)
| OnErrOtherWithoutCodes (t : executableType) (name : string) (j : nat)
| OnErrOtherInvalid (t : executableType) (name : string) (j : nat) (other : string)
| OnErrCodeInvalid (t : executableType) (name : string) (j : nat) (code : Z) (val : string)
| ForEachMissingAs (j : nat) (t : executableType) (name : string)
| ForEachFnAsWith (j : nat) (t : executableType) (name : string).

#[global] Instance problem_eq_dec : EqDecision problem.
Proof. solve_decision. Defined.

(** [%d] on a Go [int]. *)
Definition dnat (n : nat) : string := pretty n.
Definition dint (z : Z) : string := pretty z.

Definition Error (p : problem) : string :=
  let ts := executableType_string in
  match p with
  | IdentifierMissing => "identifier is missing"
  | AppVersionInvalid => "app version is not a valid semantic version"
  | AtmoVersionInvalid => "atmo version is not a valid semantic version"
  | NoFunctions => "no functions listed"
  | DuplicateFn n => "duplicate fn " +:+ n +:+ " found"
  | FnMissingName i => "function at position " +:+ dnat i +:+ " missing name"
  | FnMissingNamespace i =>
      "function at position " +:+ dnat i +:+ " missing namespace"
  | HandlerMissingType r => "handler for resource " +:+ r +:+ " missing type"
  | HandlerMissingResource r =>
      "handler for resource " +:+ r +:+ " missing resource"
  | HandlerMissingMethod r =>
      "handler for resource " +:+ r
        +:+ " is of type request, but does not specify a method"
  | HandlerMissingSteps r => "handler for resource " +:+ r +:+ " missing steps"
  | HandlerGroupLast n =>
      "handler for " +:+ n
        +:+ " has group as last step but does not include 'response' field"
  | HandlerResponseUnknown n r =>
      "handler for " +:+ n
        +:+ " lists response state key that does not exist: " +:+ r
  | ScheduleNoName i => "schedule at position " +:+ dnat i +:+ " has no name"
  | ScheduleMissingSteps n => "schedule " +:+ n +:+ " missing steps"
  | ScheduleNoEvery n => "schedule " +:+ n +:+ " has no 'every' values"
  | StepBadShape j t n =>
      "step at position " +:+ dnat j +:+ " for " +:+ ts t +:+ " " +:+ n
        +:+ " isn't an Fn, Group, or ForEach"
  | FnNotExist t n j fn =>
      ts t +:+ " for " +:+ n +:+ " lists fn at step " +:+ dnat j
        +:+ " that does not exist: " +:+ fn
        +:+ " (did you forget a namespace?)"
  | InvalidWith t n j err =>
      ts t +:+ " for " +:+ n +:+ " has invalid 'with' value at step "
        +:+ dnat j +:+ ": " +:+ err
  | KeyNotAvailable t n j k =>
      ts t +:+ " for " +:+ n +:+ " has 'with' value at step " +:+ dnat j
        +:+ " referencing a key that is not yet available in the handler's state: "
        +:+ k
  | OnErrAnyWithCodes t n j =>
      ts t +:+ " for " +:+ n +:+ " has 'onErr.any' value at step " +:+ dnat j
        +:+ " while specific codes are specified, use 'other' instead"
  | OnErrAnyInvalid t n j v =>
      ts t +:+ " for " +:+ n +:+ " has 'onErr.any' value at step " +:+ dnat j
        +:+ " with an invalid error directive: " +:+ v
  | OnErrOtherWithoutCodes t n j =>
      ts t +:+ " for " +:+ n +:+ " has 'onErr.other' value at step "
        +:+ dnat j
        +:+ " while specific codes are not specified, use 'any' instead"
  | OnErrOtherInvalid t n j v =>
      ts t +:+ " for " +:+ n +:+ " has 'onErr.any' value at step " +:+ dnat j
        +:+ " with an invalid error directive: " +:+ v
  | OnErrCodeInvalid t n j c v =>
      ts t +:+ " for " +:+ n +:+ " has 'onErr.code' value at step " +:+ dnat j
        +:+ " with an invalid error directive for code " +:+ dint c
        +:+ ": " +:+ v
  | ForEachMissingAs j t n =>
      "ForEach at position " +:+ dnat j +:+ " for " +:+ ts t +:+ " " +:+ n
        +:+ " is missing 'as' value"
  | ForEachFnAsWith j t n =>
      "ForEach at position " +:+ dnat j +:+ " for " +:+ ts t +:+ " " +:+ n
        +:+ " should not have 'fn.as' or 'fn.with' "
  end.

(** ** The problem collector *)

(** [type problems []error]. *)
Abbreviation problems := (list problem).

(** A computation that holds the collector [*problems]. *)
Definition M (A : Type) : Type := problems → A * problems.

#[global] Instance M_ret : MRet M := λ A a p, (a, p).
#[global] Instance M_bind : MBind M :=
  λ A B k m p, let '(a, p') := m p in k a p'.

(** [func (p *problems) add(err error)]. *)
Definition add (err : problem) : M unit := λ p, (tt, p ++ [err]).

(** [if c { body }] around a statement that only reports. *)
Definition when (c : bool) (body : M unit) : M unit :=
  if c then body else mret tt.

(** [for i, x := range l { s = body(i, x, s) }], the index starting at [i]. *)
Fixpoint range_from {A St} (body : nat → A → St → M St) (i : nat)
    (l : list A) (s : St) : M St :=
  match l with
  | [] => mret s
  | x :: l' => s' ← body i x s; range_from body (S i) l' s'
  end.

Definition newline_tab : string :=
  String (Ascii.ascii_of_nat 10) (String (Ascii.ascii_of_nat 9) "").

(** [func (p *problems) render() error]: [None] is the nil error, [Some text]
    the error made by [errors.New(text)]. *)
Definition render (p : problems) : option string :=
  if bool_decide (length p = 0) then None
  else
    let text := "found " +:+ dnat (length p) +:+ " problems:" in
    Some (foldl (λ text err, text +:+ newline_tab +:+ Error err) text p).

(** ** Accessors of the schema model *)

(** [_, exists := m[k]]. *)
Definition has {V} (m : gmap string V) (k : string) : bool :=
  bool_decide (is_Some (m !! k)).

Definition nonempty {A} (l : list A) : bool :=
  negb (bool_decide (length l = 0)).

(** [func (e *Executable) IsGroup() bool]. *)
Definition IsGroup (e : Executable.t) : bool :=
  bool_decide (CallableFn.Fn (Executable.CallableFn e) = "")
  && match Executable.Group e with
     | Some g => nonempty g
     | None => false
     end
  && bool_decide (Executable.ForEach e = None).

(** [func (e *Executable) IsFn() bool]. *)
Definition IsFn (e : Executable.t) : bool :=
  negb (bool_decide (CallableFn.Fn (Executable.CallableFn e) = ""))
  && bool_decide (Executable.Group e = None)
  && bool_decide (Executable.ForEach e = None).

(** [func (e *Executable) IsForEach() bool]. *)
Definition IsForEach (e : Executable.t) : bool :=
  negb (bool_decide (Executable.ForEach e = None))
  && bool_decide (CallableFn.Fn (Executable.CallableFn e) = "")
  && bool_decide (Executable.Group e = None).

(** Go's [int] on the 64-bit platforms the tool is built for. *)
Definition wrap64 (z : Z) : Z := ((z + 2 ^ 63) `mod` 2 ^ 64 - 2 ^ 63)%Z.
Definition add64 (a b : Z) : Z := wrap64 (a + b).
Definition mul64 (a b : Z) : Z := wrap64 (a * b).

(** [func (s *Schedule) NumberOfSeconds() int]. *)
Definition NumberOfSeconds (s : Schedule.t) : Z :=
  let every := Schedule.Every s in
  let seconds := ScheduleEvery.Seconds every in
  let minutes := mul64 60 (ScheduleEvery.Minutes every) in
  let hours := mul64 (mul64 60 60) (ScheduleEvery.Hours every) in
  let days := mul64 (mul64 (mul64 60 60) 24) (ScheduleEvery.Days every) in
  add64 (add64 (add64 seconds minutes) hours) days.

(** ** Parsing the [with] clause *)

(** [strings.Split(w, ": ")]: the substrings of [w] between the leftmost
    non-overlapping occurrences of the separator; [cur] is the part being
    read. *)
Fixpoint split_from (cur w : string) : list string :=
  match w with
  | EmptyString => [cur]
  | String ":"%char (String " "%char rest) => cur :: split_from "" rest
  | String c rest => split_from (cur +:+ String c "") rest
  end.

Definition Split_colon_space (w : string) : list string := split_from "" w.

Definition with_format_error (n : nat) : string :=
  "with value has wrong format: parsed " +:+ dnat n
    +:+ " parts seperated by : , expected 2".

(** The loop of [ParseWith]: [ds] is [c.DesiredState], written at index [i];
    the loop returns at the first entry that does not have two parts and
    leaves the slice as it is then. *)
Fixpoint parse_entries (i : nat) (ws : list string) (ds : list Alias.t)
    : list Alias.t * option string :=
  match ws with
  | [] => (ds, None)
  | w :: ws' =>
      match Split_colon_space w with
      | [p0; p1] => parse_entries (S i) ws' (<[i := Alias.mk p1 p0]> ds)
      | parts => (ds, Some (with_format_error (length parts)))
      end
  end.

Definition set_DesiredState (c : CallableFn.t) (ds : list Alias.t)
    : CallableFn.t :=
  CallableFn.mk (CallableFn.Fn c) (CallableFn.As c) (CallableFn.With c)
    (CallableFn.OnErr c) ds.

(** [func (c *CallableFn) ParseWith() ([]Alias, error)]: the receiver after
    the call, and either the aliases or the error. *)
Definition ParseWith (c : CallableFn.t)
    : CallableFn.t * (list Alias.t + string) :=
  if nonempty (CallableFn.DesiredState c) then
    (c, inl (CallableFn.DesiredState c))
  else
    let fresh := replicate (length (CallableFn.With c)) Alias.zero in
    match parse_entries 0 (CallableFn.With c) fresh with
    | (ds, Some err) => (set_DesiredState c ds, inr err)
    | (ds, None) => (set_DesiredState c ds, inl ds)
    end.

(** ** The step validator *)

Definition valid_directive (v : string) : bool :=
  bool_decide (v = "continue") || bool_decide (v = "return").

(** [fullState[newFn] = true] for every produced key. *)
Definition add_keys (fullState : gmap string bool) (fnsToAdd : list string)
    : gmap string bool :=
  foldl (λ st newFn, <[newFn := true]> st) fullState fnsToAdd.

Section validator.

(** [semver.IsValid] of [golang.org/x/mod/semver], an external predicate. *)
Variable IsValid : string → bool.

(** The order in which this run ranges over the per-code maps. *)
Variable order : MapOrder.

(** The [onErr] block of the closure [validateFn]. *)
Definition validateOnErr (exType : executableType) (name : string) (j : nat)
    (onErr : FnOnErr.t) : M unit :=
  let codes := size (FnOnErr.Code onErr) in
  let any := FnOnErr.Any onErr in
  let other := FnOnErr.Other onErr in
  (if bool_decide (0 < codes) && negb (bool_decide (any = "")) then
     add (OnErrAnyWithCodes exType name j)
   else if negb (bool_decide (any = "")) then
     when (negb (bool_decide (any = "continue"))
           && negb (bool_decide (any = "return")))
       (add (OnErrAnyInvalid exType name j any))
   else mret tt);;
  (if bool_decide (codes = 0) && negb (bool_decide (other = "")) then
     add (OnErrOtherWithoutCodes exType name j)
   else if negb (bool_decide (other = "")) then
     when (negb (bool_decide (other = "continue"))
           && negb (bool_decide (other = "return")))
       (add (OnErrOtherInvalid exType name j other))
   else mret tt);;
  range_from (λ _ (cv : Z * string) (_ : unit),
      when (negb (bool_decide (cv.2 = "return"))
            && negb (bool_decide (cv.2 = "continue")))
        (add (OnErrCodeInvalid exType name j cv.1 cv.2)))
    0 (range_order order (FnOnErr.Code onErr)) tt.

(** The closure [validateFn] of [validateSteps]. Its parameter [fn] is a
    copy of the caller's value: [ParseWith] assigns to the copy, which is
    what the loop over [fn.DesiredState] then reads. The closure appends to
    the captured [fnsToAdd]; the list after the call is the result. *)
Definition validateFn (exType : executableType) (name : string) (j : nat)
    (fns fullState : gmap string bool) (fn : CallableFn.t)
    (fnsToAdd : list string) : M (list string) :=
  when (negb (has fns (CallableFn.Fn fn)))
    (add (FnNotExist exType name j (CallableFn.Fn fn)));;
  let '(fn, parsed) := ParseWith fn in
  match parsed with
  | inr err => add (InvalidWith exType name j err)
  | inl _ => mret tt
  end;;
  range_from (λ _ (d : Alias.t) (_ : unit),
      when (negb (has fullState (Alias.Key d)))
        (add (KeyNotAvailable exType name j (Alias.Key d))))
    0 (CallableFn.DesiredState fn) tt;;
  match CallableFn.OnErr fn with
  | Some onErr => validateOnErr exType name j onErr
  | None => mret tt
  end;;
  let key :=
    if negb (bool_decide (CallableFn.As fn = "")) then CallableFn.As fn
    else CallableFn.Fn fn in
  mret (fnsToAdd ++ [key]).

(** The body of the loop of [validateSteps], at step [j]: the state set
    after the step. [fnsToAdd[len(fnsToAdd)-1] = s.ForEach.As] writes the
    last element, which [validateFn] has just appended. *)
Definition validateStep (exType : executableType) (name : string)
    (fns : gmap string bool) (j : nat) (s : Executable.t)
    (fullState : gmap string bool) : M (gmap string bool) :=
  let fnsToAdd : list string := [] in
  when (negb (IsFn s) && negb (IsGroup s) && negb (IsForEach s))
    (add (StepBadShape j exType name));;
  fnsToAdd ←
    (if IsFn s then
       validateFn exType name j fns fullState (Executable.CallableFn s) fnsToAdd
     else if IsGroup s then
       range_from (λ _ gfn acc, validateFn exType name j fns fullState gfn acc)
         0 (default [] (Executable.Group s)) fnsToAdd
     else if IsForEach s then
       match Executable.ForEach s with
       | Some each =>
           when (bool_decide (ForEach.As each = ""))
             (add (ForEachMissingAs j exType name));;
           when (negb (bool_decide (CallableFn.As (ForEach.Fn each) = ""))
                 || nonempty (CallableFn.With (ForEach.Fn each)))
             (add (ForEachFnAsWith j exType name));;
           fnsToAdd ←
             validateFn exType name j fns fullState (ForEach.Fn each) fnsToAdd;
           mret (<[length fnsToAdd - 1 := ForEach.As each]> fnsToAdd)
       | None => mret fnsToAdd
       end
     else mret fnsToAdd);
  mret (add_keys fullState fnsToAdd).

(** [func validateSteps(exType, name, steps, initialState, fns, problems)
    map[string]bool]. *)
Definition validateSteps (exType : executableType) (name : string)
    (steps : list Executable.t) (initialState fns : gmap string bool)
    : M (gmap string bool) :=
  range_from (validateStep exType name fns) 0 steps initialState.

(** ** The structural validator *)

Definition namespaced_name (f : Runnable.t) : string :=
  Runnable.Namespace f +:+ "#" +:+ Runnable.Name f.

(** The body of the loop over [d.Runnables]: the set [fns] after position
    [i]. *)
Definition validateRunnable (i : nat) (f : Runnable.t)
    (fns : gmap string bool) : M (gmap string bool) :=
  let namespaced := namespaced_name f in
  if has fns namespaced then
    add (DuplicateFn namespaced);; mret fns
  else if has fns (Runnable.Name f) then
    add (DuplicateFn namespaced);; mret fns
  else if bool_decide (Runnable.Name f = "") then
    add (FnMissingName i);; mret fns
  else
    when (bool_decide (Runnable.Namespace f = ""))
      (add (FnMissingNamespace i));;
    if bool_decide (Runnable.Namespace f = NamespaceDefault) then
      mret (<[namespaced := true]> (<[Runnable.Name f := true]> fns))
    else
      mret (<[namespaced := true]> fns).

Definition handler_name (h : Handler.t) : string :=
  Input.Method (Handler.Input h) +:+ " " +:+ Input.Resource (Handler.Input h).

(** The body of the loop over [d.Handlers]. *)
Definition validateHandler (fns : gmap string bool) (h : Handler.t) : M unit :=
  let input := Handler.Input h in
  when (bool_decide (Input.Type_ input = ""))
    (add (HandlerMissingType (Input.Resource input)));;
  when (bool_decide (Input.Resource input = ""))
    (add (HandlerMissingResource (Input.Resource input)));;
  when (bool_decide (Input.Type_ input = InputTypeRequest)
        && bool_decide (Input.Method input = ""))
    (add (HandlerMissingMethod (Input.Resource input)));;
  (* [len(h.Steps) == 0], else [lastStep := h.Steps[len(h.Steps)-1]] *)
  match last (Handler.Steps h) with
  | None => add (HandlerMissingSteps (Input.Resource input))
  | Some lastStep =>
      let name := handler_name h in
      fullState ←
        validateSteps executableTypeHandler name (Handler.Steps h) ∅ fns;
      if bool_decide (Handler.Response h = "") && IsGroup lastStep then
        add (HandlerGroupLast name)
      else if negb (bool_decide (Handler.Response h = "")) then
        when (negb (has fullState (Handler.Response h)))
          (add (HandlerResponseUnknown name (Handler.Response h)))
      else mret tt
  end.

(** [initialState[k] = true] for every key of [s.State]. *)
Definition initial_state (state : gmap string string) : gmap string bool :=
  map_fold (λ k _ initialState, <[k := true]> initialState) ∅ state.

(** The body of the loop over [d.Schedules]. *)
Definition validateSchedule (fns : gmap string bool) (i : nat)
    (s : Schedule.t) : M unit :=
  if bool_decide (Schedule.Name s = "") then add (ScheduleNoName i)
  else if bool_decide (length (Schedule.Steps s) = 0) then
    add (ScheduleMissingSteps (Schedule.Name s))
  else
    let every := Schedule.Every s in
    when (bool_decide (ScheduleEvery.Seconds every = 0%Z)
          && bool_decide (ScheduleEvery.Minutes every = 0%Z)
          && bool_decide (ScheduleEvery.Hours every = 0%Z)
          && bool_decide (ScheduleEvery.Days every = 0%Z))
      (add (ScheduleNoEvery (Schedule.Name s)));;
    let initialState := initial_state (Schedule.State s) in
    validateSteps executableTypeSchedule (Schedule.Name s) (Schedule.Steps s)
      initialState fns;;
    mret tt.

(** The statements of [Validate] before [problems.render()]. *)
Definition validate (d : Directive.t) : M unit :=
  when (bool_decide (Directive.Identifier d = "")) (add IdentifierMissing);;
  when (negb (IsValid (Directive.AppVersion d))) (add AppVersionInvalid);;
  when (negb (IsValid (Directive.AtmoVersion d))) (add AtmoVersionInvalid);;
  when (bool_decide (length (Directive.Runnables d) < 1)) (add NoFunctions);;
  fns ← range_from validateRunnable 0 (Directive.Runnables d) ∅;
  range_from (λ _ h _, validateHandler fns h) 0 (Directive.Handlers d) tt;;
  range_from (λ i s _, validateSchedule fns i s) 0 (Directive.Schedules d) tt.

(** The defects a run collects, in the order [problems.add] receives them. *)
Definition Validate_problems (d : Directive.t) : problems :=
  (validate d []).2.

(** [func (d *Directive) Validate() error]: the receiver after the call and
    the error. No statement of [Validate] or of its callees assigns through
    [d]: the loops bind copies of the elements, and [validateFn] takes its
    [CallableFn] by value. *)
Definition Validate (d : Directive.t) : Directive.t * option string :=
  (d, render (Validate_problems d)).

End validator.

(** ** The FQFN resolver *)

(** [func (d *Directive) fqfnForFunc(namespace, fn string) string]. *)
Definition fqfnForFunc (d : Directive.t) (namespace fn : string) : string :=
  namespace +:+ "#" +:+ fn +:+ "@" +:+ Directive.AppVersion d.

Definition set_fqfns (d : Directive.t) (m : gmap string string)
    : Directive.t :=
  Directive.mk (Directive.Identifier d) (Directive.AppVersion d)
    (Directive.AtmoVersion d) (Directive.Runnables d) (Directive.Handlers d)
    (Directive.Schedules d) (Some m).

(** The body of the loop of [calculateFQFNs]. *)
Definition registerFQFN (d : Directive.t) (fqfns : gmap string string)
    (fn : Runnable.t) : gmap string string :=
  let namespaced := namespaced_name fn in
  let fqfn := fqfnForFunc d (Runnable.Namespace fn) (Runnable.Name fn) in
  if bool_decide (Runnable.Namespace fn = NamespaceDefault) then
    <[namespaced := fqfn]> (<[Runnable.Name fn := fqfn]> fqfns)
  else
    <[namespaced := fqfn]> fqfns.

(** [func (d *Directive) calculateFQFNs()]. *)
Definition calculateFQFNs (d : Directive.t) : Directive.t :=
  set_fqfns d (foldl (registerFQFN d) ∅ (Directive.Runnables d)).

Definition not_exist_error (fn : string) : string :=
  "fn " +:+ fn +:+ " does not exist".

(** [func (d *Directive) FQFN(fn string) (string, error)]: the receiver
    after the call, and the FQFN ([inl]) or the error ([inr]). A lookup in
    a nil map finds nothing. *)
Definition FQFN (d : Directive.t) (fn : string)
    : Directive.t * (string + string) :=
  let d := if Directive.fqfns d is None then calculateFQFNs d else d in
  match default ∅ (Directive.fqfns d) !! fn with
  | Some fqfn => (d, inl fqfn)
  | None => (d, inr (not_exist_error fn))
  end.

(** ** Sample documents *)

(** A version predicate that accepts every string. *)
Definition any_version : string → bool := λ _, true.

(** The call [{fn: fn}] and the single-call step of a call. *)
Definition call (fn : string) : CallableFn.t := CallableFn.mk fn "" [] None [].
Definition step (c : CallableFn.t) : Executable.t :=
  Executable.mk c None None.

(** The document of the worked examples: the runnable [default#fetch] and
    one handler for [GET /x]. *)
Definition demo (steps : list Executable.t) (response : string)
    : Directive.t :=
  Directive.mk "demo" "v0.1.0" "v0.2.0" [Runnable.mk "fetch" "default"]
    [Handler.mk (Input.mk "request" "GET" "/x") steps response] [] None.

(** The same document with one schedule in place of the handler, and with
    other runnables and neither handler nor schedule. *)
Definition schedule_doc (s : Schedule.t) : Directive.t :=
  Directive.mk "demo" "v0.1.0" "v0.2.0" [Runnable.mk "fetch" "default"]
    [] [s] None.
Definition runnables_doc (rs : list Runnable.t) : Directive.t :=
  Directive.mk "demo" "v0.1.0" "v0.2.0" rs [] [] None.

(** The call [{fn: fetch, with: ["user"]}]. *)
Definition with_user : CallableFn.t :=
  CallableFn.mk "fetch" "" ["user"] None [].

(** A schedule that runs every 60 seconds minus one minute, and one that
    runs every 30 seconds plus one minute. *)
Definition tick_steps : Schedule.t :=
  Schedule.mk "tick" (ScheduleEvery.mk 60 (-1) 0 0) ∅ [step (call "fetch")].
Definition every_90s : Schedule.t :=
  Schedule.mk "tick" (ScheduleEvery.mk 30 1 0 0) ∅ [step (call "fetch")].



(** Steps that produce the key [fetch] twice and then bind it. *)
Definition twice_steps : list Executable.t :=
  [step (call "fetch"); step (call "fetch");
   step (CallableFn.mk "fetch" "again" ["input: fetch"] None [])].

(** A schedule seeded with the key [fetch], which its first step produces
    again and its second step binds. *)
Definition seeded : Schedule.t :=
  Schedule.mk "tick" (ScheduleEvery.mk 30 1 0 0) (<["fetch" := "seed"]> ∅)
    [step (call "fetch");
     step (CallableFn.mk "fetch" "again" ["input: fetch"] None [])].

(** A group step that itself carries a [with] entry on a key that only
    the next step produces. *)
Definition forward_steps : list Executable.t :=
  [Executable.mk (CallableFn.mk "" "" ["x: later"] None [])
     (Some [call "fetch"]) None;
   step (CallableFn.mk "fetch" "later" [] None [])].

(** A schedule seeded with the empty key, whose first call has a malformed
    [with] entry before an entry on a key that only the next step
    produces. *)
Definition after_malformed : Schedule.t :=
  Schedule.mk "tick" (ScheduleEvery.mk 30 1 0 0) (<["" := "seed"]> ∅)
    [step (CallableFn.mk "fetch" "" ["oops"; "x: later"] None []);
     step (CallableFn.mk "fetch" "later" [] None [])].

(** A schedule without a name whose step calls a function that is not
    declared, and the same schedule with a name. *)
Definition nameless : Schedule.t :=
  Schedule.mk "" (ScheduleEvery.mk 30 1 0 0) ∅ [step (call "nope")].
Definition named : Schedule.t :=
  Schedule.mk "tick" (ScheduleEvery.mk 30 1 0 0) ∅ [step (call "nope")].

(** A document with a default-namespace runnable and a runnable of the
    namespace [api], both named [fetch]. *)
Definition two_namespaces : Directive.t :=
  runnables_doc [Runnable.mk "fetch" "default"; Runnable.mk "fetch" "api"].

(** ** What a computation adds to the collector *)

(** The defects a computation reports, and its result, from an empty
    collector. *)
Definition out {A} (m : M A) : problems := (m []).2.
Definition val {A} (m : M A) : A := (m []).1.

(** A computation that only appends to the collector: its result does not
    depend on the defects collected before, which it keeps in place. *)
Definition appends {A} (m : M A) : Prop := ∀ p, m p = (val m, p ++ out m).

(** ** What the validator reports, in closed form

    The definitions of this part say, without the collector, which defects
    each part of the validator reports and which keys it produces. They are
    proved below to be what the functions above compute ([validateFn_run],
    [validateStep_run], [validateSteps_run], [validateRunnables_from_run],
    [validateHandler_run], [validateSchedule_run], [Validate_problems_eq],
    [calculated_lookup]). *)

(** The key a call produces: [as] if set, else [fn]. *)
Definition produced_key (fn : CallableFn.t) : string :=
  if negb (bool_decide (CallableFn.As fn = "")) then CallableFn.As fn
  else CallableFn.Fn fn.

(** The parsed bindings the validator holds for a call: [fn.DesiredState]
    after [fn.ParseWith()]. *)
Definition bindings (fn : CallableFn.t) : list Alias.t :=
  CallableFn.DesiredState (ParseWith fn).1.

(** The calls [validateFn] is applied to at a step. *)
Definition visited_calls (s : Executable.t) : list CallableFn.t :=
  if IsFn s then [Executable.CallableFn s]
  else if IsGroup s then default [] (Executable.Group s)
  else if IsForEach s then
    match Executable.ForEach s with
    | Some each => [ForEach.Fn each]
    | None => []
    end
  else [].

(** The keys a step adds to the available-state set. *)
Definition step_keys (s : Executable.t) : list string :=
  if IsFn s then [produced_key (Executable.CallableFn s)]
  else if IsGroup s then produced_key <$> default [] (Executable.Group s)
  else if IsForEach s then
    match Executable.ForEach s with
    | Some each => [ForEach.As each]
    | None => []
    end
  else [].

(** The available-state set at the start of step [j]. *)
Definition state_before (seed : gmap string bool) (steps : list Executable.t)
    (j : nat) : gmap string bool :=
  add_keys seed (concat (step_keys <$> take j steps)).

(** The defects of the loop over a call's parsed bindings. *)
Definition key_problems (t : executableType) (name : string) (j : nat)
    (st : gmap string bool) (ds : list Alias.t) : problems :=
  ds ≫= λ d,
    if negb (has st (Alias.Key d)) then
      [KeyNotAvailable t name j (Alias.Key d)]
    else [].

Definition any_problems (t : executableType) (name : string) (j : nat)
    (e : FnOnErr.t) : problems :=
  if bool_decide (FnOnErr.Any e = "") then []
  else if bool_decide (0 < size (FnOnErr.Code e)) then
    [OnErrAnyWithCodes t name j]
  else if valid_directive (FnOnErr.Any e) then []
  else [OnErrAnyInvalid t name j (FnOnErr.Any e)].

Definition other_problems (t : executableType) (name : string) (j : nat)
    (e : FnOnErr.t) : problems :=
  if bool_decide (FnOnErr.Other e = "") then []
  else if bool_decide (size (FnOnErr.Code e) = 0) then
    [OnErrOtherWithoutCodes t name j]
  else if valid_directive (FnOnErr.Other e) then []
  else [OnErrOtherInvalid t name j (FnOnErr.Other e)].

Definition code_problems (t : executableType) (name : string) (j : nat)
    (entries : list (Z * string)) : problems :=
  entries ≫= λ cv,
    if valid_directive cv.2 then []
    else [OnErrCodeInvalid t name j cv.1 cv.2].

Definition onErr_problems (order : MapOrder) (t : executableType)
    (name : string) (j : nat) (e : FnOnErr.t) : problems :=
  any_problems t name j e ++ other_problems t name j e
    ++ code_problems t name j (range_order order (FnOnErr.Code e)).

(** The defects of one call, in the order [validateFn] reports them. *)
Definition fn_problems (order : MapOrder) (t : executableType)
    (name : string) (j : nat) (fns st : gmap string bool)
    (fn : CallableFn.t) : problems :=
  (if has fns (CallableFn.Fn fn) then []
   else [FnNotExist t name j (CallableFn.Fn fn)])
  ++ match (ParseWith fn).2 with
     | inr err => [InvalidWith t name j err]
     | inl _ => []
     end
  ++ key_problems t name j st (bindings fn)
  ++ match CallableFn.OnErr fn with
     | Some e => onErr_problems order t name j e
     | None => []
     end.

(** The defects on the shape of a step. *)
Definition shape_problems (t : executableType) (name : string) (j : nat)
    (s : Executable.t) : problems :=
  if negb (IsFn s) && negb (IsGroup s) && negb (IsForEach s) then
    [StepBadShape j t name]
  else if IsFn s || IsGroup s then []
  else
    match Executable.ForEach s with
    | Some each =>
        (if bool_decide (ForEach.As each = "") then
           [ForEachMissingAs j t name]
         else [])
        ++ (if negb (bool_decide (CallableFn.As (ForEach.Fn each) = ""))
               || nonempty (CallableFn.With (ForEach.Fn each))
            then [ForEachFnAsWith j t name]
            else [])
    | None => []
    end.

(** The defects of step [j], from the state set [st] at its start. *)
Definition step_problems (order : MapOrder) (t : executableType)
    (name : string) (fns : gmap string bool) (j : nat) (s : Executable.t)
    (st : gmap string bool) : problems :=
  shape_problems t name j s
    ++ (visited_calls s ≫= fn_problems order t name j fns st).

(** The defects of a sequence of steps validated from the state set
    [seed]. *)
Definition steps_problems (order : MapOrder) (t : executableType)
    (name : string) (fns seed : gmap string bool)
    (steps : list Executable.t) : problems :=
  concat (imap (λ j s,
    step_problems order t name fns j s (state_before seed steps j)) steps).

(** The set [fns] after a runnable: unchanged for a duplicate and for a
    runnable without a name. *)
Definition register (fns : gmap string bool) (f : Runnable.t)
    : gmap string bool :=
  if has fns (namespaced_name f) || has fns (Runnable.Name f) then fns
  else if bool_decide (Runnable.Name f = "") then fns
  else if bool_decide (Runnable.Namespace f = NamespaceDefault) then
    <[namespaced_name f := true]> (<[Runnable.Name f := true]> fns)
  else <[namespaced_name f := true]> fns.

(** The set [fns] at the start of position [i] of the runnable sequence, and
    the set of known function identifiers the step validator receives. *)
Definition fns_before (rs : list Runnable.t) (i : nat) : gmap string bool :=
  foldl register ∅ (take i rs).
Definition known_fns (rs : list Runnable.t) : gmap string bool :=
  foldl register ∅ rs.

(** The defects of the runnable at position [i]. *)
Definition runnable_problems (i : nat) (f : Runnable.t)
    (fns : gmap string bool) : problems :=
  if has fns (namespaced_name f) || has fns (Runnable.Name f) then
    [DuplicateFn (namespaced_name f)]
  else if bool_decide (Runnable.Name f = "") then [FnMissingName i]
  else if bool_decide (Runnable.Namespace f = "") then [FnMissingNamespace i]
  else [].

Definition runnables_problems (rs : list Runnable.t) : problems :=
  concat (imap (λ i f, runnable_problems i f (fns_before rs i)) rs).

(** The defects on the fields of the document itself. *)
Definition document_problems (IsValid : string → bool) (d : Directive.t)
    : problems :=
  (if bool_decide (Directive.Identifier d = "") then [IdentifierMissing]
   else [])
  ++ (if IsValid (Directive.AppVersion d) then [] else [AppVersionInvalid])
  ++ (if IsValid (Directive.AtmoVersion d) then [] else [AtmoVersionInvalid])
  ++ (if bool_decide (length (Directive.Runnables d) < 1) then [NoFunctions]
      else []).

Definition input_problems (h : Handler.t) : problems :=
  let input := Handler.Input h in
  (if bool_decide (Input.Type_ input = "") then
     [HandlerMissingType (Input.Resource input)]
   else [])
  ++ (if bool_decide (Input.Resource input = "") then
        [HandlerMissingResource (Input.Resource input)]
      else [])
  ++ (if bool_decide (Input.Type_ input = InputTypeRequest)
         && bool_decide (Input.Method input = "")
      then [HandlerMissingMethod (Input.Resource input)]
      else []).

Definition response_problems (h : Handler.t) (lastStep : Executable.t)
    (fullState : gmap string bool) : problems :=
  if bool_decide (Handler.Response h = "") then
    if IsGroup lastStep then [HandlerGroupLast (handler_name h)] else []
  else if has fullState (Handler.Response h) then []
  else [HandlerResponseUnknown (handler_name h) (Handler.Response h)].

(** The defects of one handler. *)
Definition handler_problems (order : MapOrder) (fns : gmap string bool)
    (h : Handler.t) : problems :=
  input_problems h
  ++ match last (Handler.Steps h) with
     | None => [HandlerMissingSteps (Input.Resource (Handler.Input h))]
     | Some lastStep =>
         steps_problems order executableTypeHandler (handler_name h) fns ∅
           (Handler.Steps h)
         ++ response_problems h lastStep
              (add_keys ∅ (concat (step_keys <$> Handler.Steps h)))
     end.

Definition every_problems (s : Schedule.t) : problems :=
  let every := Schedule.Every s in
  if bool_decide (ScheduleEvery.Seconds every = 0%Z)
     && bool_decide (ScheduleEvery.Minutes every = 0%Z)
     && bool_decide (ScheduleEvery.Hours every = 0%Z)
     && bool_decide (ScheduleEvery.Days every = 0%Z)
  then [ScheduleNoEvery (Schedule.Name s)]
  else [].

(** The defects of the schedule at position [i]. *)
Definition schedule_problems (order : MapOrder) (fns : gmap string bool)
    (i : nat) (s : Schedule.t) : problems :=
  if bool_decide (Schedule.Name s = "") then [ScheduleNoName i]
  else if bool_decide (length (Schedule.Steps s) = 0) then
    [ScheduleMissingSteps (Schedule.Name s)]
  else
    every_problems s
    ++ steps_problems order executableTypeSchedule (Schedule.Name s) fns
         (initial_state (Schedule.State s)) (Schedule.Steps s).

(** The handler or schedule and the step a step-level defect names. *)
Definition problem_step (p : problem)
    : option (executableType * string * nat) :=
  match p with
  | StepBadShape j t n | ForEachMissingAs j t n | ForEachFnAsWith j t n
  | FnNotExist t n j _ | InvalidWith t n j _ | KeyNotAvailable t n j _
  | OnErrAnyWithCodes t n j | OnErrAnyInvalid t n j _
  | OnErrOtherWithoutCodes t n j | OnErrOtherInvalid t n j _
  | OnErrCodeInvalid t n j _ _ => Some (t, n, j)
  | _ => None
  end.

(** The summed interval of a schedule, over the integers. *)
Definition interval_sum (s : Schedule.t) : Z :=
  let every := Schedule.Every s in
  (ScheduleEvery.Seconds every + 60 * ScheduleEvery.Minutes every
   + 3600 * ScheduleEvery.Hours every + 86400 * ScheduleEvery.Days every)%Z.

Definition every_zero (s : Schedule.t) : Prop :=
  let every := Schedule.Every s in
  ScheduleEvery.Seconds every = 0%Z ∧ ScheduleEvery.Minutes every = 0%Z
  ∧ ScheduleEvery.Hours every = 0%Z ∧ ScheduleEvery.Days every = 0%Z.

(** One line per defect, each after a newline and a tab, in the order of
    the collector. *)
Definition rendered_lines (ps : problems) : string :=
  foldr (λ err text, newline_tab +:+ Error err +:+ text) "" ps.

(** The keys under which a runnable is registered: [namespace#name], and
    the bare name too in the default namespace. *)
Definition lookup_keys (f : Runnable.t) : list string :=
  if bool_decide (Runnable.Namespace f = NamespaceDefault) then
    [Runnable.Name f; namespaced_name f]
  else [namespaced_name f].

(** A runnable enters [fns]: it is not reported as a duplicate and it has a
    name. *)
Definition registers (fns : gmap string bool) (f : Runnable.t) : bool :=
  negb (has fns (namespaced_name f) || has fns (Runnable.Name f))
  && negb (bool_decide (Runnable.Name f = "")).

(** The defect is a duplicate-definition defect. *)
Definition is_duplicate (p : problem) : bool :=
  match p with DuplicateFn _ => true | _ => false end.

(** The runnable a lookup key resolves to: the last one registered under
    it. *)
Definition resolve (rs : list Runnable.t) (k : string) : option Runnable.t :=
  last (filter (λ g, k ∈ lookup_keys g) rs).

(** The string contains the separator [#] of the namespaced form. *)
Fixpoint has_hash (s : string) : bool :=
  match s with
  | EmptyString => false
  | String c s' => bool_decide (c = "#"%char) || has_hash s'
  end.

(** The cache of a directive is empty or holds what [calculateFQFNs]
    computes from the directive as it is now. *)
Definition cache_valid (d : Directive.t) : Prop :=
  Directive.fqfns d = None
  ∨ Directive.fqfns d = Directive.fqfns (calculateFQFNs d).

(** ** Notions for the properties of the parser and the resolver *)

(** The separator [": "] occurs in a string. *)
Fixpoint has_sep (w : string) : bool :=
  match w with
  | EmptyString => false
  | String c rest =>
      (Ascii.eqb c ":"
       && match rest with
          | String c' _ => Ascii.eqb c' " "
          | EmptyString => false
          end)
      || has_sep rest
  end.

(** An entry of [With] that splits into exactly two parts. *)
Definition two_parts (w : string) : Prop :=
  length (Split_colon_space w) = 2.

(** What [ParseWith] stores for an entry with two parts. *)
Definition parse_alias (w : string) : Alias.t :=
  match Split_colon_space w with
  | [p0; p1] => Alias.mk p1 p0
  | _ => Alias.zero
  end.

(** The entry of [With] that stands for a binding: ["<alias>: <key>"]. *)
Definition format_alias (a : Alias.t) : string :=
  Alias.Alias a +:+ ": " +:+ Alias.Key a.

(** [d.Runnables = rs]. *)
Definition set_Runnables (d : Directive.t) (rs : list Runnable.t)
    : Directive.t :=
  Directive.mk (Directive.Identifier d) (Directive.AppVersion d)
    (Directive.AtmoVersion d) rs (Directive.Handlers d)
    (Directive.Schedules d) (Directive.fqfns d).

(** A call whose two [with] entries are well formed, and one whose second
    entry is not. *)
Definition two_bindings : CallableFn.t :=
  CallableFn.mk "fetch" "" ["user: fetch"; "id: fetch"] None [].
Definition second_malformed : CallableFn.t :=
  CallableFn.mk "fetch" "" ["user: fetch"; "oops"; "id: fetch"] None [].

(** ** What the validator accepts *)

(** An [onErr] policy without defect: [any] is set only without per-code
    directives, [other] only with them, and every directive is one of
    [continue] and [return]. *)
Definition onErr_accepted (e : FnOnErr.t) : Prop :=
  (FnOnErr.Any e ≠ "" →
   FnOnErr.Code e = ∅ ∧ valid_directive (FnOnErr.Any e) = true)
  ∧ (FnOnErr.Other e ≠ "" →
     FnOnErr.Code e ≠ ∅ ∧ valid_directive (FnOnErr.Other e) = true)
  ∧ (∀ c v, FnOnErr.Code e !! c = Some v → valid_directive v = true).

(** A call without defect, for the known functions [fns] and the state set
    [st]: the function is known, the [with] clause parses, every key it
    binds is available, and the [onErr] policy is in order. *)
Definition call_accepted (fns st : gmap string bool) (fn : CallableFn.t)
    : Prop :=
  has fns (CallableFn.Fn fn)
  ∧ (∃ ds, (ParseWith fn).2 = inl ds ∧ ∀ d, d ∈ ds → has st (Alias.Key d))
  ∧ (∀ e, CallableFn.OnErr fn = Some e → onErr_accepted e).

(** A step without defect: a call, a group of calls or a for-each whose
    calls are without defect; the for-each names its result and its call
    has neither [as] nor [with]. *)
Definition step_accepted (fns st : gmap string bool) (s : Executable.t)
    : Prop :=
  (IsFn s ∧ call_accepted fns st (Executable.CallableFn s))
  ∨ (IsGroup s
     ∧ ∀ fn, fn ∈ default [] (Executable.Group s) → call_accepted fns st fn)
  ∨ (IsForEach s
     ∧ ∃ each, Executable.ForEach s = Some each
         ∧ ForEach.As each ≠ ""
         ∧ CallableFn.As (ForEach.Fn each) = ""
         ∧ CallableFn.With (ForEach.Fn each) = []
         ∧ call_accepted fns st (ForEach.Fn each)).

(** Steps without defect: each one is, from the keys of the seed and of the
    steps before it. *)
Definition steps_accepted (fns seed : gmap string bool)
    (steps : list Executable.t) : Prop :=
  ∀ j s, steps !! j = Some s →
    step_accepted fns (state_before seed steps j) s.

(** Runnables without defect: each has a name and a namespace, and neither
    its namespaced form nor its name is a key of a runnable before it. *)
Definition runnables_accepted (rs : list Runnable.t) : Prop :=
  (∀ g, g ∈ rs → Runnable.Name g ≠ "" ∧ Runnable.Namespace g ≠ "")
  ∧ (∀ i j g g', j < i → rs !! i = Some g → rs !! j = Some g' →
     (namespaced_name g ∉ lookup_keys g')
     ∧ (Runnable.Name g ∉ lookup_keys g')).

Definition handler_accepted (fns : gmap string bool) (h : Handler.t)
    : Prop :=
  let input := Handler.Input h in
  Input.Type_ input ≠ "" ∧ Input.Resource input ≠ ""
  ∧ (Input.Type_ input = InputTypeRequest → Input.Method input ≠ "")
  ∧ steps_accepted fns ∅ (Handler.Steps h)
  ∧ ∃ lastStep, last (Handler.Steps h) = Some lastStep
      ∧ (Handler.Response h = "" → ¬ IsGroup lastStep)
      ∧ (Handler.Response h ≠ "" →
         ∃ s, s ∈ Handler.Steps h ∧ Handler.Response h ∈ step_keys s).

Definition schedule_accepted (fns : gmap string bool) (s : Schedule.t)
    : Prop :=
  Schedule.Name s ≠ "" ∧ Schedule.Steps s ≠ [] ∧ ¬ every_zero s
  ∧ steps_accepted fns (initial_state (Schedule.State s)) (Schedule.Steps s).

(** A document without defect. The functions its steps may call are the
    keys of its runnables. *)
Definition document_accepted (IsValid : string → bool) (d : Directive.t)
    : Prop :=
  Directive.Identifier d ≠ ""
  ∧ IsValid (Directive.AppVersion d) ∧ IsValid (Directive.AtmoVersion d)
  ∧ Directive.Runnables d ≠ []
  ∧ runnables_accepted (Directive.Runnables d)
  ∧ (∀ h, h ∈ Directive.Handlers d →
     handler_accepted (known_fns (Directive.Runnables d)) h)
  ∧ (∀ s, s ∈ Directive.Schedules d →
     schedule_accepted (known_fns (Directive.Runnables d)) s).

Create HintDb appends.

(** ** Lemmas on the collector *)

Lemma appends_ret {A} (a : A) : appends (mret a : M A).
Proof. intros p. unfold val, out. cbn. by rewrite app_nil_r. Qed.

Lemma appends_add err : appends (add err).
Proof. intros p. reflexivity. Qed.

Lemma appends_bind {A B} (m : M A) (k : A → M B) :
  appends m → (∀ a, appends (k a)) → appends (m ≫= k).
Proof.
  intros Hm Hk p. unfold val, out, mbind, M_bind.
  rewrite (Hm p), (Hm []). cbn.
  rewrite (Hk (val m) (p ++ out m)), (Hk (val m) (out m)). cbn.
  by rewrite app_assoc.
Qed.

Lemma out_bind {A B} (m : M A) (k : A → M B) :
  appends m → (∀ a, appends (k a)) →
  out (m ≫= k) = out m ++ out (k (val m)).
Proof.
  intros Hm Hk. unfold out at 1, mbind, M_bind.
  rewrite (Hm []). cbn. by rewrite (Hk (val m) (out m)).
Qed.

Lemma val_bind {A B} (m : M A) (k : A → M B) :
  appends m → (∀ a, appends (k a)) → val (m ≫= k) = val (k (val m)).
Proof.
  intros Hm Hk. unfold val at 1, mbind, M_bind.
  rewrite (Hm []). cbn. by rewrite (Hk (val m) (out m)).
Qed.

Lemma appends_when c body : appends body → appends (when c body).
Proof. destruct c; [done | intros _; apply appends_ret]. Qed.

Lemma out_when c body : out (when c body) = if c then out body else [].
Proof. by destruct c. Qed.

Lemma out_add err : out (add err) = [err].
Proof. reflexivity. Qed.

Lemma out_ret {A} (a : A) : out (mret a : M A) = [].
Proof. reflexivity. Qed.

Lemma val_ret {A} (a : A) : val (mret a : M A) = a.
Proof. reflexivity. Qed.

Lemma appends_range_from {A St} (body : nat → A → St → M St) l :
  (∀ i x s, appends (body i x s)) → ∀ i s, appends (range_from body i l s).
Proof.
  intros Hb. induction l as [|x l IH]; intros i s; cbn [range_from].
  - apply appends_ret.
  - apply appends_bind; [apply Hb | intros a; apply IH].
Qed.

Lemma range_from_cons {A St} (body : nat → A → St → M St) i x l s :
  range_from body i (x :: l) s = (body i x s ≫= range_from body (S i) l).
Proof. reflexivity. Qed.

#[local] Hint Resolve appends_ret appends_add appends_bind appends_when
  appends_range_from : appends.

Lemma out_range_when {A} (c : A → bool) (e : A → problem) l i :
  out (range_from (λ _ x (_ : unit), when (c x) (add (e x))) i l tt)
  = l ≫= λ x, if c x then [e x] else [].
Proof.
  revert i. induction l as [|x l IH]; intros i; [done|].
  rewrite range_from_cons, out_bind; auto with appends.
  rewrite out_when, out_add. destruct (val _). rewrite IH. done.
Qed.

(** ** The structure of a step validation *)

Section steps.

Context (order : MapOrder) (t : executableType) (name : string).
Context (fns : gmap string bool).

Lemma validateOnErr_appends j e : appends (validateOnErr order t name j e).
Proof.
  unfold validateOnErr.
  repeat (apply appends_bind; [|intros ?]);
    repeat case_match; auto with appends.
Qed.

Lemma validateOnErr_out j e :
  out (validateOnErr order t name j e) = onErr_problems order t name j e.
Proof.
  unfold validateOnErr, onErr_problems.
  rewrite out_bind; [|repeat case_match; auto with appends|
    intros; apply appends_bind; [repeat case_match|]; auto with appends].
  rewrite out_bind; [|repeat case_match; auto with appends|
    auto with appends].
  f_equal; [|f_equal].
  - unfold any_problems, valid_directive.
    repeat case_bool_decide; cbn; try done; lia.
  - unfold other_problems, valid_directive.
    repeat case_bool_decide; cbn; try done; lia.
  - rewrite out_range_when. unfold code_problems, valid_directive.
    apply list_bind_ext; [|done]. intros [c v]. cbn.
    by repeat case_bool_decide.
Qed.

Lemma validateFn_appends j st fn acc :
  appends (validateFn order t name j fns st fn acc).
Proof.
  unfold validateFn. destruct (ParseWith fn) as [fn' parsed].
  repeat (apply appends_bind; [|intros ?]);
    repeat case_match; auto using validateOnErr_appends with appends.
Qed.

Lemma validateFn_val j st fn acc :
  val (validateFn order t name j fns st fn acc) = acc ++ [produced_key fn].
Proof.
  unfold validateFn, produced_key.
  pose proof (eq_refl (ParseWith fn)) as Hp. revert Hp.
  generalize (ParseWith fn) at 1 3. intros [fn' parsed] Hp.
  assert (CallableFn.As fn' = CallableFn.As fn
          ∧ CallableFn.Fn fn' = CallableFn.Fn fn) as [HAs HFn].
  { unfold ParseWith in Hp. repeat case_match; by simplify_eq. }
  repeat (rewrite val_bind;
    [|repeat case_match; auto using validateOnErr_appends with appends
     |intros; repeat (apply appends_bind; [|intros ?]);
       repeat case_match; auto using validateOnErr_appends with appends]).
  rewrite val_ret, HAs, HFn. done.
Qed.

Lemma validateFn_out j st fn acc :
  out (validateFn order t name j fns st fn acc)
  = fn_problems order t name j fns st fn.
Proof.
  unfold validateFn, fn_problems, bindings.
  pose proof (eq_refl (ParseWith fn)) as Hp. revert Hp.
  generalize (ParseWith fn) at 1 3 4 5. intros [fn' parsed] Hp.
  assert (CallableFn.OnErr fn' = CallableFn.OnErr fn) as HOn.
  { unfold ParseWith in Hp. repeat case_match; by simplify_eq. }
  repeat (rewrite out_bind;
    [|repeat case_match; auto using validateOnErr_appends with appends
     |intros; repeat (apply appends_bind; [|intros ?]);
       repeat case_match; auto using validateOnErr_appends with appends]).
  rewrite out_when, out_add, out_range_when, out_ret, app_nil_r, HOn. cbn.
  f_equal; [by destruct (has fns _)|].
  f_equal; [by destruct parsed|].
  f_equal. destruct (CallableFn.OnErr fn); [apply validateOnErr_out | done].
Qed.

Lemma validateFn_run j st fn acc p :
  validateFn order t name j fns st fn acc p
  = (acc ++ [produced_key fn], p ++ fn_problems order t name j fns st fn).
Proof.
  rewrite (validateFn_appends j st fn acc p).
  by rewrite validateFn_val, validateFn_out.
Qed.

Lemma validateGroup_run j st g acc p :
  range_from (λ _ gfn acc, validateFn order t name j fns st gfn acc) 0 g acc p
  = (acc ++ (produced_key <$> g),
     p ++ (g ≫= fn_problems order t name j fns st)).
Proof.
  generalize 0. revert acc p.
  induction g as [|fn g IH]; intros acc p i.
  - cbn. by rewrite !app_nil_r.
  - rewrite range_from_cons. unfold mbind at 1, M_bind.
    rewrite validateFn_run, IH, bind_cons, fmap_cons.
    by rewrite <-!app_assoc.
Qed.

Lemma validateStep_run j s st p :
  validateStep order t name fns j s st p
  = (add_keys st (step_keys s), p ++ step_problems order t name fns j s st).
Proof.
  unfold validateStep, step_problems, shape_problems, visited_calls, step_keys.
  unfold mbind at 1, M_bind.
  destruct (IsFn s) eqn:HFn; cbn [negb andb orb when].
  { unfold mret at 1, M_ret. unfold mbind, M_bind.
    rewrite validateFn_run. cbn. by rewrite app_nil_r. }
  destruct (IsGroup s) eqn:HGroup; cbn [negb andb orb when].
  { unfold mret at 1, M_ret. unfold mbind, M_bind.
    rewrite validateGroup_run. done. }
  destruct (IsForEach s) eqn:HEach; cbn [negb andb orb when].
  - unfold mret at 1, M_ret. unfold mbind at 1, M_bind.
    destruct (Executable.ForEach s) as [each|]; [|by rewrite app_nil_r].
    unfold mbind, M_bind, when.
    destruct (bool_decide (ForEach.As each = "")),
      (negb (bool_decide (CallableFn.As (ForEach.Fn each) = ""))
       || nonempty (CallableFn.With (ForEach.Fn each)));
      cbn; rewrite validateFn_run; cbn; by rewrite <-?app_assoc, ?app_nil_r.
  - done.
Qed.

Lemma add_keys_app st ks1 ks2 :
  add_keys st (ks1 ++ ks2) = add_keys (add_keys st ks1) ks2.
Proof. apply foldl_app. Qed.

Lemma validateSteps_from_run i steps st p :
  range_from (validateStep order t name fns) i steps st p
  = (add_keys st (concat (step_keys <$> steps)),
     p ++ concat (imap (λ j s,
       step_problems order t name fns (i + j) s
         (add_keys st (concat (step_keys <$> take j steps)))) steps)).
Proof.
  revert i st p. induction steps as [|s steps IH]; intros i st p.
  - cbn. by rewrite app_nil_r.
  - rewrite range_from_cons. unfold mbind, M_bind.
    rewrite validateStep_run, IH. cbn [fmap list_fmap concat imap take].
    rewrite add_keys_app, Nat.add_0_r, <-app_assoc. do 4 f_equal.
    apply imap_ext. intros j s' _. cbn.
    by rewrite add_keys_app, Nat.add_succ_r.
Qed.

Lemma validateSteps_run steps seed p :
  validateSteps order t name steps seed fns p
  = (add_keys seed (concat (step_keys <$> steps)),
     p ++ steps_problems order t name fns seed steps).
Proof. apply validateSteps_from_run. Qed.

Lemma validateSteps_appends steps seed :
  appends (validateSteps order t name steps seed fns).
Proof. intros p. unfold val, out. rewrite !validateSteps_run. done. Qed.

(** ** The available-state set *)

Lemma has_insert {V} (m : gmap string V) k k' v :
  has (<[k' := v]> m) k = bool_decide (k' = k) || has m k.
Proof.
  unfold has. destruct (decide (k' = k)) as [->|Hne].
  - rewrite lookup_insert_eq, bool_decide_eq_true_2 by done.
    by rewrite bool_decide_eq_true_2 by eauto.
  - by rewrite lookup_insert_ne, (bool_decide_eq_false_2 (k' = k)) by done.
Qed.

Lemma has_add_keys st ks k : has (add_keys st ks) k ↔ has st k ∨ k ∈ ks.
Proof.
  revert st. induction ks as [|k' ks IH]; intros st; cbn.
  - rewrite elem_of_nil. tauto.
  - fold (add_keys (<[k' := true]> st) ks).
    rewrite IH, has_insert, elem_of_cons, orb_True, bool_decide_spec.
    intuition congruence.
Qed.

Lemma elem_of_concat {A} (ls : list (list A)) (y : A) :
  y ∈ concat ls ↔ ∃ l, y ∈ l ∧ l ∈ ls.
Proof.
  induction ls as [|l ls IH]; cbn.
  - rewrite elem_of_nil. split; [done|]. by intros (? & _ & ?%elem_of_nil).
  - rewrite elem_of_app, IH. split.
    + intros [Hy|(l' & Hy & Hl')]; [exists l | exists l'];
        (split; [done|]); [left | by right].
    + intros (l' & Hy & [->|Hl']%elem_of_cons); [by left | right; eauto].
Qed.

Lemma elem_of_concat_fmap {A B} (f : A → list B) (l : list A) (y : B) :
  y ∈ concat (f <$> l) ↔ ∃ x, x ∈ l ∧ y ∈ f x.
Proof.
  rewrite elem_of_concat. split.
  - intros (ys & Hy & (x & -> & Hx)%list_elem_of_fmap). eauto.
  - intros (x & Hx & Hy). exists (f x). split; [done|].
    apply list_elem_of_fmap. eauto.
Qed.

Lemma elem_of_concat_imap {A B} (f : nat → A → list B) (l : list A) (y : B) :
  y ∈ concat (imap f l) ↔ ∃ i x, l !! i = Some x ∧ y ∈ f i x.
Proof.
  rewrite elem_of_concat. split.
  - intros (ys & Hy & (i & x & -> & Hx)%elem_of_lookup_imap). eauto.
  - intros (i & x & Hx & Hy). exists (f i x). split; [done|].
    apply elem_of_lookup_imap. eauto.
Qed.

(** A key is available at the start of step [j] exactly when the seed holds
    it or a strictly earlier step produced it. *)
Lemma has_state_before seed steps j k :
  has (state_before seed steps j) k
  ↔ has seed k
    ∨ ∃ i s, i < j ∧ steps !! i = Some s ∧ k ∈ step_keys s.
Proof.
  unfold state_before. rewrite has_add_keys, elem_of_concat_fmap.
  split; (intros [?|H]; [by left | right]).
  - destruct H as (s & (i & Hi)%list_elem_of_lookup & Hk).
    apply lookup_take_Some in Hi as [Hi Hlt]. eauto.
  - destruct H as (i & s & Hlt & Hi & Hk). exists s. split; [|done].
    apply list_elem_of_lookup. exists i. by rewrite lookup_take_lt.
Qed.

End steps.

(** ** The structure of a validation run *)

(** Closes a goal that equates two ways of appending the same defects. *)
Ltac collect :=
  cbn [negb andb orb]; unfold add, mret, M_ret; cbn [app fst snd];
  rewrite <-?app_assoc, ?app_nil_r; cbn [app]; done.

Lemma range_unit_run {A} (body : nat → A → M unit) l i p :
  (∀ j x, appends (body j x)) →
  range_from (λ j x (_ : unit), body j x) i l tt p
  = (tt, p ++ concat (imap (λ j x, out (body (i + j) x)) l)).
Proof.
  intros Hb. revert i p. induction l as [|x l IH]; intros i p.
  - cbn. by rewrite app_nil_r.
  - rewrite range_from_cons. unfold mbind, M_bind.
    rewrite (Hb i x p). destruct (val (body i x)).
    rewrite IH. cbn [imap concat]. rewrite Nat.add_0_r, <-app_assoc.
    do 4 f_equal. apply imap_ext. intros j y _. cbn. by rewrite Nat.add_succ_r.
Qed.

Lemma validateRunnable_run i f fns p :
  validateRunnable i f fns p = (register fns f, p ++ runnable_problems i f fns).
Proof.
  unfold validateRunnable, register, runnable_problems.
  destruct (has fns (namespaced_name f)); [done|].
  destruct (has fns (Runnable.Name f)); [done|]. cbn [orb].
  destruct (bool_decide (Runnable.Name f = "")); [done|].
  unfold mbind, M_bind.
  destruct (bool_decide (Runnable.Namespace f = "")) eqn:Hns; cbn.
  - apply bool_decide_eq_true in Hns.
    rewrite bool_decide_eq_false_2; [done|]. by rewrite Hns.
  - destruct (bool_decide (Runnable.Namespace f = NamespaceDefault));
      unfold mret, M_ret; by rewrite app_nil_r.
Qed.

Lemma validateRunnables_from_run i rs fns p :
  range_from validateRunnable i rs fns p
  = (foldl register fns rs,
     p ++ concat (imap (λ j f,
       runnable_problems (i + j) f (foldl register fns (take j rs))) rs)).
Proof.
  revert i fns p. induction rs as [|f rs IH]; intros i fns p.
  - cbn. by rewrite app_nil_r.
  - rewrite range_from_cons. unfold mbind, M_bind.
    rewrite validateRunnable_run, IH. cbn [imap concat take foldl].
    rewrite Nat.add_0_r, <-app_assoc. do 4 f_equal.
    apply imap_ext. intros j y _. cbn. by rewrite Nat.add_succ_r.
Qed.

Section run.

Context (IsValid : string → bool) (order : MapOrder).

Lemma validateHandler_run fns h p :
  validateHandler order fns h p = (tt, p ++ handler_problems order fns h).
Proof.
  unfold validateHandler, handler_problems, input_problems.
  unfold mbind, M_bind, when.
  set (input := Handler.Input h).
  destruct (bool_decide (Input.Type_ input = "")),
    (bool_decide (Input.Resource input = "")),
    (bool_decide (Input.Type_ input = InputTypeRequest)
     && bool_decide (Input.Method input = ""));
    cbn [add mret M_ret];
    (destruct (last (Handler.Steps h)) as [lastStep|];
      [rewrite validateSteps_run; unfold response_problems;
       destruct (bool_decide (Handler.Response h = "")); cbn [negb andb];
       [destruct (IsGroup lastStep)
       |destruct (has _ (Handler.Response h))];
       collect
      |collect]).
Qed.

Lemma validateSchedule_run fns i s p :
  validateSchedule order fns i s p = (tt, p ++ schedule_problems order fns i s).
Proof.
  unfold validateSchedule, schedule_problems, every_problems.
  destruct (bool_decide (Schedule.Name s = "")); [done|].
  destruct (bool_decide (length (Schedule.Steps s) = 0)); [done|].
  unfold mbind, M_bind, when.
  destruct (_ && _); cbn [add mret M_ret];
    rewrite validateSteps_run; collect.
Qed.

Lemma validateHandler_appends fns h : appends (validateHandler order fns h).
Proof. intros p. unfold val, out. by rewrite !validateHandler_run. Qed.

Lemma validateSchedule_appends fns i s :
  appends (validateSchedule order fns i s).
Proof. intros p. unfold val, out. by rewrite !validateSchedule_run. Qed.

Lemma validateHandlers_run fns hs p :
  range_from (λ _ h _, validateHandler order fns h) 0 hs tt p
  = (tt, p ++ concat (handler_problems order fns <$> hs)).
Proof.
  rewrite (range_unit_run (λ _ h, validateHandler order fns h))
    by (intros; apply validateHandler_appends).
  rewrite <-(imap_const (handler_problems order fns)). do 3 f_equal.
  apply imap_ext. intros i h _. cbn. unfold out.
  by rewrite validateHandler_run.
Qed.

Lemma validateSchedules_run fns ss p :
  range_from (λ i s _, validateSchedule order fns i s) 0 ss tt p
  = (tt, p ++ concat (imap (schedule_problems order fns) ss)).
Proof.
  rewrite (range_unit_run (λ i s, validateSchedule order fns i s))
    by (intros; apply validateSchedule_appends).
  do 3 f_equal. apply imap_ext. intros i s _. cbn. unfold out.
  by rewrite validateSchedule_run.
Qed.

(** The defects of a run are those of the document fields, of every
    runnable, of every handler and of every schedule, in this order. *)
Lemma Validate_problems_eq d :
  Validate_problems IsValid order d
  = document_problems IsValid d
    ++ runnables_problems (Directive.Runnables d)
    ++ concat (handler_problems order (known_fns (Directive.Runnables d))
                 <$> Directive.Handlers d)
    ++ concat (imap (schedule_problems order
                       (known_fns (Directive.Runnables d)))
                 (Directive.Schedules d)).
Proof.
  unfold Validate_problems, validate, document_problems.
  unfold mbind, M_bind, when.
  destruct (bool_decide (Directive.Identifier d = "")),
    (IsValid (Directive.AppVersion d)), (IsValid (Directive.AtmoVersion d)),
    (bool_decide (length (Directive.Runnables d) < 1));
    cbn [add mret M_ret negb];
    rewrite validateRunnables_from_run,
      validateHandlers_run, validateSchedules_run;
    unfold runnables_problems, fns_before, known_fns; collect.
Qed.

End run.

(** ** Which defects a step can report *)

(** Closes a membership in a list written with [++] and list literals. *)
Ltac elem_now :=
  rewrite ?elem_of_app, ?list_elem_of_singleton, ?elem_of_cons; auto 6.

(** Takes a membership in a list written with [++], [if] and list literals
    apart. *)
Ltac elem_cases H :=
  repeat match type of H with
  | _ ∈ _ ++ _ => apply elem_of_app in H as [H|H]
  | _ ∈ [] => by apply elem_of_nil in H
  | _ ∈ [_] => apply list_elem_of_singleton in H
  | _ ∈ (if ?c then _ else _) => destruct c eqn:?
  | _ ∈ match ?x with _ => _ end => destruct x eqn:?
  end.

Section step_defects.

Context (order : MapOrder) (t : executableType) (name : string).
Context (fns : gmap string bool).

Lemma elem_of_key_problems j st ds p :
  p ∈ key_problems t name j st ds
  ↔ ∃ d, d ∈ ds ∧ has st (Alias.Key d) = false
         ∧ p = KeyNotAvailable t name j (Alias.Key d).
Proof.
  unfold key_problems. rewrite list_elem_of_bind. split.
  - intros (d & Hp & Hd). exists d. destruct (has st (Alias.Key d)); cbn in Hp.
    + by apply elem_of_nil in Hp.
    + apply list_elem_of_singleton in Hp. done.
  - intros (d & Hd & Hst & ->). exists d. rewrite Hst. cbn.
    split; [apply list_elem_of_singleton|]; done.
Qed.

Lemma elem_of_code_problems j entries p :
  p ∈ code_problems t name j entries
  ↔ ∃ c v, (c, v) ∈ entries ∧ valid_directive v = false
           ∧ p = OnErrCodeInvalid t name j c v.
Proof.
  unfold code_problems. rewrite list_elem_of_bind. split.
  - intros ([c v] & Hp & Hd). exists c, v. cbn in Hp.
    destruct (valid_directive v).
    + by apply elem_of_nil in Hp.
    + apply list_elem_of_singleton in Hp. done.
  - intros (c & v & Hd & Hv & ->). exists (c, v). cbn. rewrite Hv.
    split; [apply list_elem_of_singleton|]; done.
Qed.

Lemma onErr_problems_step j e p :
  p ∈ onErr_problems order t name j e → problem_step p = Some (t, name, j).
Proof.
  unfold onErr_problems, any_problems, other_problems. intros H.
  elem_cases H; try by subst.
  apply elem_of_code_problems in H as (c & v & _ & _ & ->). done.
Qed.

Lemma fn_problems_step j st fn p :
  p ∈ fn_problems order t name j fns st fn →
  problem_step p = Some (t, name, j).
Proof.
  unfold fn_problems. intros H. elem_cases H; try by subst.
  - apply elem_of_key_problems in H as (d & _ & _ & ->). done.
  - by eapply onErr_problems_step.
Qed.

Lemma step_problems_step j s st p :
  p ∈ step_problems order t name fns j s st →
  problem_step p = Some (t, name, j).
Proof.
  unfold step_problems, shape_problems. intros H.
  elem_cases H; try by subst.
  apply list_elem_of_bind in H as (fn & H & _). by eapply fn_problems_step.
Qed.

(** A defect of a sequence is a defect of one of its steps, reported from
    the state set at the start of that step, and names that step. *)
Lemma elem_of_steps_problems seed steps p :
  p ∈ steps_problems order t name fns seed steps
  ↔ ∃ j s, steps !! j = Some s
           ∧ p ∈ step_problems order t name fns j s
                   (state_before seed steps j).
Proof. unfold steps_problems. apply elem_of_concat_imap. Qed.

Lemma steps_problems_step seed steps p :
  p ∈ steps_problems order t name fns seed steps →
  ∃ j, problem_step p = Some (t, name, j) ∧ j < length steps.
Proof.
  intros (j & s & Hj & Hp)%elem_of_steps_problems. exists j.
  split; [by eapply step_problems_step | by eapply lookup_lt_Some].
Qed.

End step_defects.

(** ** The defects of one handler or schedule within a run *)

Lemma concat_imap_lookup {A B} (f : nat → A → list B) (l : list A) i x :
  l !! i = Some x →
  ∃ before after, concat (imap f l) = before ++ f i x ++ after.
Proof.
  revert f i. induction l as [|y l IH]; intros f i Hi; [done|].
  destruct i as [|i]; cbn in *.
  - simplify_eq. by exists [], (concat (imap (f ∘ S) l)).
  - destruct (IH (f ∘ S) i Hi) as (before & after & ->).
    exists (f 0 y ++ before), after. cbn. by rewrite <-app_assoc.
Qed.

Lemma concat_fmap_lookup {A B} (f : A → list B) (l : list A) i x :
  l !! i = Some x →
  ∃ before after, concat (f <$> l) = before ++ f x ++ after.
Proof.
  intros Hi. rewrite <-(imap_const f l).
  apply (concat_imap_lookup (λ _, f) l i x Hi).
Qed.

(** The defects of the schedule at position [i] are a segment of the
    defects of the run. *)
Lemma Validate_problems_schedule IsValid order d i s :
  Directive.Schedules d !! i = Some s →
  ∃ before after,
    Validate_problems IsValid order d
    = before
      ++ schedule_problems order (known_fns (Directive.Runnables d)) i s
      ++ after.
Proof.
  intros Hi. rewrite Validate_problems_eq.
  destruct (concat_imap_lookup
    (schedule_problems order (known_fns (Directive.Runnables d))) _ _ _ Hi)
    as (before & after & ->).
  exists (document_problems IsValid d
    ++ runnables_problems (Directive.Runnables d)
    ++ concat (handler_problems order (known_fns (Directive.Runnables d))
                 <$> Directive.Handlers d) ++ before), after.
  by rewrite <-!app_assoc.
Qed.

(** The defects of the handler at position [i] are a segment of the defects
    of the run. *)
Lemma Validate_problems_handler IsValid order d i h :
  Directive.Handlers d !! i = Some h →
  ∃ before after,
    Validate_problems IsValid order d
    = before
      ++ handler_problems order (known_fns (Directive.Runnables d)) h
      ++ after.
Proof.
  intros Hi. rewrite Validate_problems_eq.
  destruct (concat_fmap_lookup
    (handler_problems order (known_fns (Directive.Runnables d)))
    _ _ _ Hi) as (before & after & ->).
  exists (document_problems IsValid d
    ++ runnables_problems (Directive.Runnables d) ++ before),
    (after ++ concat (imap (schedule_problems order
                              (known_fns (Directive.Runnables d)))
                        (Directive.Schedules d))).
  by rewrite <-!app_assoc.
Qed.

(** ** The interval of a schedule (C3) *)

Lemma every_problems_zero s :
  ScheduleNoEvery (Schedule.Name s) ∈ every_problems s ↔ every_zero s.
Proof.
  unfold every_problems, every_zero. cbn zeta.
  repeat case_bool_decide; cbn [andb];
    rewrite ?elem_of_nil, ?list_elem_of_singleton; intuition congruence.
Qed.

Lemma schedule_interval_zero order fns i s :
  Schedule.Name s ≠ "" → Schedule.Steps s ≠ [] →
  ScheduleNoEvery (Schedule.Name s) ∈ schedule_problems order fns i s
  ↔ every_zero s.
Proof.
  intros Hname Hsteps. unfold schedule_problems.
  rewrite bool_decide_eq_false_2 by done.
  rewrite bool_decide_eq_false_2 by (by destruct (Schedule.Steps s)).
  rewrite elem_of_app, every_problems_zero. split; [|by left].
  intros [H|H]; [done|].
  by apply steps_problems_step in H as (j & Hj & _).
Qed.

Lemma wrap64_small z :
  (- 9223372036854775808 ≤ z < 9223372036854775808)%Z → wrap64 z = z.
Proof.
  intros Hz. unfold wrap64.
  change (2 ^ 63)%Z with 9223372036854775808%Z.
  change (2 ^ 64)%Z with 18446744073709551616%Z.
  rewrite Z.mod_small; lia.
Qed.

Lemma NumberOfSeconds_sum s :
  (0 ≤ ScheduleEvery.Seconds (Schedule.Every s))%Z →
  (0 ≤ ScheduleEvery.Minutes (Schedule.Every s))%Z →
  (0 ≤ ScheduleEvery.Hours (Schedule.Every s))%Z →
  (0 ≤ ScheduleEvery.Days (Schedule.Every s))%Z →
  (interval_sum s < 2 ^ 63)%Z →
  NumberOfSeconds s = interval_sum s.
Proof.
  unfold NumberOfSeconds, interval_sum, add64, mul64. cbn zeta.
  change (2 ^ 63)%Z with 9223372036854775808%Z.
  intros Hs Hm Hh Hd Hsum.
  rewrite (wrap64_small (60 * 60)) by lia.
  rewrite (wrap64_small (60 * 60 * 24)) by lia.
  rewrite (wrap64_small (60 * _)) by lia.
  rewrite (wrap64_small (60 * 60 * _)) by lia.
  rewrite (wrap64_small (60 * 60 * 24 * _)) by lia.
  set (sec := ScheduleEvery.Seconds _) in *.
  set (min := ScheduleEvery.Minutes _) in *.
  set (hrs := ScheduleEvery.Hours _) in *.
  set (dys := ScheduleEvery.Days _) in *.
  rewrite (wrap64_small (sec + _)) by lia.
  rewrite (wrap64_small (sec + _ + _)) by lia.
  rewrite (wrap64_small (sec + _ + _ + _)) by lia. lia.
Qed.

(** C3 (amended). For a schedule with a non-empty name and at least one
    step, [Validate] reports the interval defect — among the defects it
    collects for the schedule, a segment of the defects of the run —
    exactly when seconds, minutes, hours and days are all zero. When the
    four are non-negative, that is exactly when the summed interval
    seconds + 60·minutes + 3600·hours + 86400·days is not greater than
    zero, and the sum is what [NumberOfSeconds] returns as long as it fits
    an [int]. *)
Theorem schedule_interval_defect order fns i s :
  Schedule.Name s ≠ "" → Schedule.Steps s ≠ [] →
  let reported := (validateSchedule order fns i s []).2 in
  (ScheduleNoEvery (Schedule.Name s) ∈ reported ↔ every_zero s)
  ∧ ((0 ≤ ScheduleEvery.Seconds (Schedule.Every s))%Z →
     (0 ≤ ScheduleEvery.Minutes (Schedule.Every s))%Z →
     (0 ≤ ScheduleEvery.Hours (Schedule.Every s))%Z →
     (0 ≤ ScheduleEvery.Days (Schedule.Every s))%Z →
     (ScheduleNoEvery (Schedule.Name s) ∈ reported
      ↔ ¬ (0 < interval_sum s)%Z)
     ∧ ((interval_sum s < 2 ^ 63)%Z → NumberOfSeconds s = interval_sum s))
  ∧ (∀ IsValid d,
     Directive.Schedules d !! i = Some s →
     fns = known_fns (Directive.Runnables d) →
     ∃ before after,
       Validate_problems IsValid order d = before ++ reported ++ after).
Proof.
  intros Hname Hsteps reported. subst reported.
  rewrite validateSchedule_run. cbn [snd app]. split_and!.
  - by apply schedule_interval_zero.
  - intros Hs Hm Hh Hd. split; [|by apply NumberOfSeconds_sum].
    rewrite schedule_interval_zero by done.
    unfold every_zero, interval_sum. cbn zeta. lia.
  - intros IsValid d Hi ->. by apply Validate_problems_schedule.
Qed.

(** The theorem at a schedule that runs every 90 seconds. *)
Lemma schedule_interval_defect_witness :
  ScheduleNoEvery "tick" ∈ (validateSchedule order_forward ∅ 0 every_90s []).2
  ↔ ¬ (0 < interval_sum every_90s)%Z.
Proof.
  refine (proj1 (proj1 (proj2 (schedule_interval_defect order_forward ∅ 0
    every_90s _ _)) _ _ _ _)); [done | done | cbn; lia ..].
Defined.

(** C3, as stated, fails: the schedule [tick_steps] has a name and a step,
    its summed interval 60 + 60·(-1) is zero, and validation accepts the
    document: no interval defect is reported. *)
Lemma schedule_interval_counterexample :
  Schedule.Name tick_steps ≠ ""
  ∧ Schedule.Steps tick_steps ≠ []
  ∧ interval_sum tick_steps = 0%Z
  ∧ NumberOfSeconds tick_steps = 0%Z
  ∧ Validate_problems any_version order_forward (schedule_doc tick_steps) = []
  ∧ (Validate any_version order_forward (schedule_doc tick_steps)).2 = None.
Proof. repeat split; try done; vm_compute; reflexivity. Qed.

(** ** A malformed [with] entry (C8) *)

(** C8. On the sample document whose single step is
    [{fn: fetch, with: ["user"]}] the run collects two defects, not one:
    the syntax defect, and a dependency defect on the empty key, read from
    the zero-valued [Alias] that [ParseWith] leaves in [DesiredState] when
    it returns its error. *)
Theorem malformed_with_two_problems order :
  Validate_problems any_version order (demo [step with_user] "")
  = [InvalidWith executableTypeHandler "GET /x" 0 (with_format_error 1);
     KeyNotAvailable executableTypeHandler "GET /x" 0 ""]
  ∧ (Validate any_version order (demo [step with_user] "")).2
    = Some ("found 2 problems:" +:+ newline_tab
        +:+ "handler for GET /x has invalid 'with' value at step 0: with value has wrong format: parsed 1 parts seperated by : , expected 2"
        +:+ newline_tab
        +:+ "handler for GET /x has 'with' value at step 0 referencing a key that is not yet available in the handler's state: ").
Proof. split; vm_compute; reflexivity. Qed.

(** ** The [onErr] policy of a call (C4) *)

Lemma elem_of_range_order (order : MapOrder) (m : gmap Z string) c v :
  (c, v) ∈ range_order order m ↔ m !! c = Some v.
Proof. by rewrite (range_order_perm order m), elem_of_map_to_list. Qed.





(** ** For-each steps (C7) *)




(** ** Producing a key again (C10) *)




(** A dependency defect at step [j] on key [k] is reported exactly when a
    visited call of the step holds a parsed binding on [k] and [k] is not
    available at the start of the step. *)
Lemma KeyNotAvailable_steps order t name fns seed steps j k :
  KeyNotAvailable t name j k ∈ steps_problems order t name fns seed steps
  ↔ ∃ s fn a, steps !! j = Some s ∧ fn ∈ visited_calls s ∧ a ∈ bindings fn
      ∧ Alias.Key a = k ∧ has (state_before seed steps j) k = false.
Proof.
  rewrite elem_of_steps_problems. split.
  - intros (j' & s & Hj' & Hp).
    pose proof (step_problems_step _ _ _ _ _ _ _ _ Hp) as Hstep.
    cbn in Hstep. simplify_eq.
    unfold step_problems, shape_problems in Hp.
    elem_cases Hp; try done.
    apply list_elem_of_bind in Hp as (fn & Hp & Hfn).
    unfold fn_problems in Hp. elem_cases Hp; try done.
    + apply elem_of_key_problems in Hp as (a & Ha & Hst & [= Hk]).
      exists s, fn, a. by rewrite Hk.
    + unfold onErr_problems, any_problems, other_problems in Hp.
      elem_cases Hp; try done.
      by apply elem_of_code_problems in Hp as (? & ? & _ & _ & ?).
  - intros (s & fn & a & Hj & Hfn & Ha & <- & Hst).
    exists j, s. split; [done|]. unfold step_problems.
    apply elem_of_app. right. apply list_elem_of_bind. exists fn.
    split; [|done]. unfold fn_problems. rewrite !elem_of_app.
    right. right. left. apply elem_of_key_problems. eauto.
Qed.

Lemma state_before_run order t name fns seed steps j p :
  (validateSteps order t name (take j steps) seed fns p).1
  = state_before seed steps j.
Proof. by rewrite validateSteps_run. Qed.




(** The sample handler that produces [fetch] twice validates, and so does
    the sample schedule whose first step produces a key of its seed. *)
Lemma reproduced_key_validates order :
  (Validate any_version order (demo twice_steps "")).2 = None
  ∧ (Validate any_version order (schedule_doc seeded)).2 = None.
Proof. split; vm_compute; reflexivity. Qed.

(** ** Bindings and the available-state set (C1) *)

Lemma has_initial_state (state : gmap string string) k :
  has (initial_state state) k ↔ is_Some (state !! k).
Proof.
  unfold initial_state, has. rewrite bool_decide_spec.
  apply (map_fold_weak_ind (λ r m, is_Some (r !! k) ↔ is_Some (m !! k))).
  - by rewrite !lookup_empty.
  - intros i x m r _ IH. destruct (decide (i = k)) as [->|Hne].
    + rewrite !lookup_insert_eq. split; eauto.
    + by rewrite !lookup_insert_ne.
Qed.

Lemma has_empty {V} k : has (∅ : gmap string V) k = false.
Proof. unfold has. rewrite lookup_empty. apply bool_decide_eq_false_2.
  by intros [? ?]. Qed.

(** C1 (amended). In a sequence of steps validated from a seed, a parsed
    binding of a call the step validator visits at step [j] — the call of a
    single-call step, a member of a group, the inner call of a for-each —
    gets a dependency defect exactly when its source key is neither in the
    seed nor produced by a step strictly before [j]: a key produced by step
    [j] itself (by another member of the same group, too) or by a later
    step does not count. [Validate] validates the steps of a handler from
    the empty seed and those of a schedule from the keys of its [State]
    map, each sequence on its own. *)
Theorem binding_dependency_defect order fns :
  (∀ t name seed steps j s fn a,
     steps !! j = Some s → fn ∈ visited_calls s → a ∈ bindings fn →
     KeyNotAvailable t name j (Alias.Key a)
       ∈ (validateSteps order t name steps seed fns []).2
     ↔ ¬ (has seed (Alias.Key a)
          ∨ ∃ i s', i < j ∧ steps !! i = Some s'
                    ∧ Alias.Key a ∈ step_keys s'))
  ∧ (∀ h p, Handler.Steps h ≠ [] →
     ∃ response,
       (validateHandler order fns h p).2
       = p ++ input_problems h
           ++ (validateSteps order executableTypeHandler (handler_name h)
                 (Handler.Steps h) ∅ fns []).2
           ++ response)
  ∧ (∀ i sch p, Schedule.Name sch ≠ "" → Schedule.Steps sch ≠ [] →
     (validateSchedule order fns i sch p).2
     = p ++ every_problems sch
         ++ (validateSteps order executableTypeSchedule (Schedule.Name sch)
               (Schedule.Steps sch) (initial_state (Schedule.State sch))
               fns []).2)
  ∧ (∀ k, has (∅ : gmap string bool) k = false)
  ∧ (∀ state k, has (initial_state state) k ↔ is_Some (state !! k)).
Proof.
  split_and!.
  - intros t name seed steps j s fn a Hj Hfn Ha.
    rewrite validateSteps_run. cbn [snd app].
    rewrite KeyNotAvailable_steps, <-has_state_before. split.
    + intros (s' & fn' & a' & _ & _ & _ & _ & Hst). rewrite Hst. intros [].
    + intros Hst. exists s, fn, a. split_and!; try done.
      by destruct (has (state_before seed steps j) (Alias.Key a)).
  - intros h p Hsteps. rewrite validateHandler_run. cbn [snd].
    unfold handler_problems.
    destruct (last (Handler.Steps h)) as [lastStep|] eqn:Hlast.
    + rewrite validateSteps_run. cbn [snd app].
      eexists. reflexivity.
    + by apply last_None in Hlast.
  - intros i sch p Hname Hsteps. rewrite validateSchedule_run. cbn [snd].
    unfold schedule_problems.
    rewrite bool_decide_eq_false_2 by done.
    rewrite bool_decide_eq_false_2 by (by destruct (Schedule.Steps sch)).
    by rewrite validateSteps_run.
  - apply has_empty.
  - apply has_initial_state.
Qed.

(** The theorem on the sample handler that binds [fetch] at its third
    step: no dependency defect. *)
Lemma binding_dependency_defect_witness :
  KeyNotAvailable executableTypeHandler "GET /x" 2 "fetch"
    ∉ (validateSteps order_forward executableTypeHandler "GET /x" twice_steps
         ∅ (known_fns [Runnable.mk "fetch" "default"]) []).2.
Proof.
  intros H.
  apply (proj1 (binding_dependency_defect order_forward
    (known_fns [Runnable.mk "fetch" "default"])) executableTypeHandler
    "GET /x" ∅ twice_steps 2
    (step (CallableFn.mk "fetch" "again" ["input: fetch"] None []))
    (CallableFn.mk "fetch" "again" ["input: fetch"] None [])
    (Alias.mk "fetch" "input") eq_refl) in H.
  - apply H. right. exists 0, (step (call "fetch")).
    split; [lia|]. split; [done|]. vm_compute. left.
  - vm_compute. left.
  - vm_compute. left.
Defined.

(** C1, as stated, fails. In [after_malformed] the first call is visited
    and its entry ["x: later"] follows a malformed entry; [later] is
    produced by the second step only, and the run reports the syntax defect
    alone: no dependency defect. In [forward_steps] the first step is a
    group that carries the entry ["x: later"] itself, [later] is produced
    by the second step only, and the document validates. *)
Lemma binding_dependency_counterexample :
  Split_colon_space "x: later" = ["x"; "later"]
  ∧ step_keys <$> Schedule.Steps after_malformed = [["fetch"]; ["later"]]
  ∧ Validate_problems any_version order_forward (schedule_doc after_malformed)
    = [InvalidWith executableTypeSchedule "tick" 0 (with_format_error 1)]
  ∧ step_keys <$> forward_steps = [["fetch"]; ["later"]]
  ∧ (Validate any_version order_forward (demo forward_steps "")).2 = None.
Proof. split_and!; vm_compute; reflexivity. Qed.

(** ** The aggregate error (C2) *)

Lemma string_app_assoc (a b c : string) : (a +:+ b) +:+ c = a +:+ b +:+ c.
Proof.
  induction a as [|x a IH]; [done|].
  change (String x ((a +:+ b) +:+ c) = String x (a +:+ b +:+ c)).
  by f_equal.
Qed.

Lemma string_app_empty_r (a : string) : a +:+ "" = a.
Proof.
  induction a as [|x a IH]; [done|].
  change (String x (a +:+ "") = String x a). by f_equal.
Qed.

Lemma render_lines text ps :
  foldl (λ text err, text +:+ newline_tab +:+ Error err) text ps
  = text +:+ rendered_lines ps.
Proof.
  revert text. induction ps as [|p ps IH]; intros text;
    unfold rendered_lines; cbn [foldl foldr].
  - by rewrite string_app_empty_r.
  - fold (rendered_lines ps). by rewrite IH, !string_app_assoc.
Qed.

Lemma render_None ps : render ps = None ↔ ps = [].
Proof.
  unfold render. case_bool_decide as Hlen.
  - split; [intros _; by apply length_zero_iff_nil | done].
  - split; [done | intros ->; done].
Qed.

Lemma render_Some ps :
  ps ≠ [] →
  render ps
  = Some ("found " +:+ dnat (length ps) +:+ " problems:" +:+ rendered_lines ps).
Proof.
  intros Hps. unfold render.
  rewrite bool_decide_eq_false_2 by (by destruct ps).
  cbv zeta. by rewrite render_lines, !string_app_assoc.
Qed.

(** C2 (amended). [Validate] returns nil exactly when the run collected no
    defect; otherwise one error whose text gives the number of defects and
    then one line per defect in the order they were collected. The defects
    collected are those of the document fields, then of every runnable,
    then of every handler, then of every schedule: no defect that is
    reported is dropped. Every runnable is visited, every step of every
    handler, and every step of every schedule that has a name. *)
Theorem validate_aggregate IsValid order d :
  let ps := Validate_problems IsValid order d in
  let fns := known_fns (Directive.Runnables d) in
  ((Validate IsValid order d).2 = None ↔ ps = [])
  ∧ (ps ≠ [] →
     (Validate IsValid order d).2
     = Some ("found " +:+ dnat (length ps) +:+ " problems:"
             +:+ rendered_lines ps))
  ∧ ps = document_problems IsValid d
         ++ runnables_problems (Directive.Runnables d)
         ++ concat (handler_problems order fns <$> Directive.Handlers d)
         ++ concat (imap (schedule_problems order fns) (Directive.Schedules d))
  ∧ (∀ i f p, Directive.Runnables d !! i = Some f →
     p ∈ (validateRunnable i f (fns_before (Directive.Runnables d) i) []).2 →
     p ∈ ps)
  ∧ (∀ h j s p, h ∈ Directive.Handlers d → Handler.Steps h !! j = Some s →
     p ∈ (validateStep order executableTypeHandler (handler_name h) fns j s
            (state_before ∅ (Handler.Steps h) j) []).2 →
     p ∈ ps)
  ∧ (∀ i sch j s p, Directive.Schedules d !! i = Some sch →
     Schedule.Name sch ≠ "" → Schedule.Steps sch !! j = Some s →
     p ∈ (validateStep order executableTypeSchedule (Schedule.Name sch) fns
            j s (state_before (initial_state (Schedule.State sch))
                   (Schedule.Steps sch) j) []).2 →
     p ∈ ps).
Proof.
  intros ps fns. subst ps fns. split_and!.
  - apply render_None.
  - apply render_Some.
  - apply Validate_problems_eq.
  - intros i f p Hi. rewrite validateRunnable_run. cbn [snd app]. intros Hp.
    rewrite Validate_problems_eq, !elem_of_app. right. left.
    apply elem_of_concat_imap. eauto.
  - intros h j s p Hh Hj. rewrite validateStep_run. cbn [snd app]. intros Hp.
    rewrite Validate_problems_eq, !elem_of_app. right. right. left.
    apply elem_of_concat_fmap. exists h. split; [done|].
    unfold handler_problems. apply elem_of_app. right.
    destruct (last (Handler.Steps h)) eqn:Hlast.
    + apply elem_of_app. left. apply elem_of_steps_problems. eauto.
    + apply last_None in Hlast. by rewrite Hlast in Hj.
  - intros i sch j s p Hi Hname Hj. rewrite validateStep_run. cbn [snd app].
    intros Hp.
    rewrite Validate_problems_eq, !elem_of_app. right. right. right.
    apply elem_of_concat_imap. exists i, sch. split; [done|].
    unfold schedule_problems.
    rewrite bool_decide_eq_false_2 by done.
    rewrite bool_decide_eq_false_2
      by (destruct (Schedule.Steps sch); [done | by cbn]).
    apply elem_of_app. right. apply elem_of_steps_problems. eauto.
Qed.

(** The theorem on the sample document with a response key that no step
    produces. *)
Lemma validate_aggregate_witness :
  (Validate any_version order_forward (demo [step (call "fetch")] "missing")).2
  = Some ("found " +:+ dnat 1 +:+ " problems:"
          +:+ rendered_lines
                [HandlerResponseUnknown "GET /x" "missing"]).
Proof.
  apply (validate_aggregate any_version order_forward
    (demo [step (call "fetch")] "missing")).
  vm_compute. discriminate.
Defined.

(** C2, as stated, fails on the traversal: the step of the schedule
    [nameless] calls a function that is not declared, which the step
    validator reports when the schedule has a name; for the nameless
    schedule the run reports the missing name and does not visit the
    step. *)
Lemma traversal_counterexample :
  Schedule.Steps nameless = Schedule.Steps named
  ∧ Validate_problems any_version order_forward (schedule_doc named)
    = [FnNotExist executableTypeSchedule "tick" 0 "nope"]
  ∧ Validate_problems any_version order_forward (schedule_doc nameless)
    = [ScheduleNoName 0].
Proof. split_and!; vm_compute; reflexivity. Qed.

(** ** Validation and its receiver (C9) *)




Section orders.

Context (order order' : MapOrder).








End orders.

(** [ParseWith] assigns to its receiver: the call it is applied to holds its
    parsed bindings afterwards. [validateFn] applies it to its own copy of
    the call. *)
Lemma ParseWith_assigns_receiver :
  CallableFn.DesiredState
    (ParseWith (CallableFn.mk "fetch" "" ["input: fetch"] None [])).1
  = [Alias.mk "fetch" "input"].
Proof. reflexivity. Qed.



(** ** Duplicate runnables (C5) *)

Lemma has_register fns f k :
  has (register fns f) k
  ↔ has fns k ∨ (registers fns f ∧ k ∈ lookup_keys f).
Proof.
  unfold register, registers, lookup_keys.
  destruct (has fns (namespaced_name f) || has fns (Runnable.Name f));
    cbn [negb andb].
  { split; [by left | by intros [?|[[] _]]]. }
  destruct (bool_decide (Runnable.Name f = "")); cbn [negb].
  { split; [by left | by intros [?|[[] _]]]. }
  destruct (bool_decide (Runnable.Namespace f = NamespaceDefault));
    rewrite ?has_insert, ?orb_True, ?bool_decide_spec,
      ?elem_of_cons, ?elem_of_nil;
    (split; [intros H | intros [H|[_ H]]]); destruct_or?; subst; auto 6;
    done.
Qed.

Lemma fns_before_S rs i f :
  rs !! i = Some f → fns_before rs (S i) = register (fns_before rs i) f.
Proof.
  intros Hi. unfold fns_before.
  by rewrite (take_S_r _ _ _ Hi), foldl_app.
Qed.

(** A key is in [fns] at position [i] exactly when an earlier runnable that
    entered [fns] is registered under it. *)
Lemma has_fns_before rs i k :
  has (fns_before rs i) k
  ↔ ∃ j g, j < i ∧ rs !! j = Some g
           ∧ registers (fns_before rs j) g ∧ k ∈ lookup_keys g.
Proof.
  induction i as [|i IH].
  - unfold fns_before. rewrite take_0. cbn. rewrite has_empty.
    split; [done|]. intros (j & ? & ? & _). lia.
  - destruct (rs !! i) as [f|] eqn:Hi.
    + rewrite (fns_before_S _ _ _ Hi), has_register, IH. split.
      * intros [(j & g & Hj & Hg)|[Hreg Hk]].
        -- exists j, g. split; [lia | done].
        -- exists i, f. split; [lia | done].
      * intros (j & g & Hj & Hg & Hreg & Hk).
        destruct (decide (j = i)) as [->|Hne].
        -- right. by simplify_eq.
        -- left. exists j, g. split; [lia | done].
    + assert (fns_before rs (S i) = fns_before rs i) as ->.
      { unfold fns_before. apply lookup_ge_None in Hi.
        by rewrite !take_ge by lia. }
      rewrite IH. split; intros (j & g & Hj & Hg & Hrest).
      * exists j, g. split; [lia | done].
      * exists j, g. split; [|done].
        apply lookup_lt_Some in Hg. apply lookup_ge_None in Hi. lia.
Qed.

Lemma runnable_problems_duplicate i f fns :
  runnable_problems i f fns = [DuplicateFn (namespaced_name f)]
  ↔ has fns (namespaced_name f) ∨ has fns (Runnable.Name f).
Proof.
  unfold runnable_problems.
  destruct (has fns (namespaced_name f)), (has fns (Runnable.Name f));
    cbn [orb]; try (split; [auto | done]; fail).
  repeat case_bool_decide; split; (done || intros [[]|[]]).
Qed.

Lemma runnable_problems_no_duplicate i f fns n :
  DuplicateFn n ∈ runnable_problems i f fns →
  runnable_problems i f fns = [DuplicateFn (namespaced_name f)].
Proof.
  unfold runnable_problems. intros H. elem_cases H; done.
Qed.

Lemma input_problems_not_duplicate h p :
  p ∈ input_problems h → is_duplicate p = false.
Proof. unfold input_problems. intros H. elem_cases H; by subst. Qed.

Lemma steps_problems_not_duplicate order t name fns seed steps p :
  p ∈ steps_problems order t name fns seed steps → is_duplicate p = false.
Proof.
  intros (j & Hstep & _)%steps_problems_step. by destruct p.
Qed.

Lemma handler_problems_not_duplicate order fns h p :
  p ∈ handler_problems order fns h → is_duplicate p = false.
Proof.
  unfold handler_problems, response_problems. intros H.
  elem_cases H; try by subst.
  - by eapply input_problems_not_duplicate.
  - by eapply steps_problems_not_duplicate.
Qed.

Lemma schedule_problems_not_duplicate order fns i s p :
  p ∈ schedule_problems order fns i s → is_duplicate p = false.
Proof.
  unfold schedule_problems, every_problems. intros H.
  elem_cases H; try by subst.
  by eapply steps_problems_not_duplicate.
Qed.

Lemma document_problems_not_duplicate IsValid d p :
  p ∈ document_problems IsValid d → is_duplicate p = false.
Proof. unfold document_problems. intros H. elem_cases H; by subst. Qed.

Lemma filter_none {A} (P : A → Prop) `{∀ x, Decision (P x)} (l : list A) :
  (∀ x, x ∈ l → ¬ P x) → filter P l = [].
Proof.
  intros Hl. induction l as [|x l IH]; [done|].
  rewrite filter_cons_False by (apply Hl; left).
  apply IH. intros y Hy. apply Hl. by right.
Qed.

(** The duplicate defects of a run are those of its runnables. *)
Lemma Validate_duplicates IsValid order d :
  filter is_duplicate (Validate_problems IsValid order d)
  = filter is_duplicate (runnables_problems (Directive.Runnables d)).
Proof.
  rewrite Validate_problems_eq, !filter_app.
  rewrite (filter_none _ (document_problems IsValid d)).
  2:{ intros p Hp%document_problems_not_duplicate.
      by apply Is_true_false_2. }
  rewrite (filter_none _ (concat (_ <$> _))).
  2:{ intros p (h & _ & Hp%handler_problems_not_duplicate)%elem_of_concat_fmap.
      by apply Is_true_false_2. }
  rewrite (filter_none _ (concat (imap _ _))).
  2:{ intros p (i & s & _ & Hp%schedule_problems_not_duplicate)
        %elem_of_concat_imap. by apply Is_true_false_2. }
  by rewrite !app_nil_r.
Qed.

Lemma namespaced_in_lookup_keys f : namespaced_name f ∈ lookup_keys f.
Proof. unfold lookup_keys. case_bool_decide; elem_now. Qed.

(** C5 (amended). The runnable at position [i] is reported as a duplicate —
    by one defect, the only defect of that position — exactly when its
    [namespace#name] or its bare [name] is a key under which an earlier
    runnable was registered; an earlier runnable is registered, under
    [namespace#name] and in the default namespace under its bare name too,
    when it was not reported as a duplicate itself and has a name. The
    duplicate defects of a run are those of its runnables, and a document
    with exactly two runnables that share namespace and a non-empty name
    has exactly one. *)
Theorem duplicate_runnables IsValid order d :
  let rs := Directive.Runnables d in
  (∀ i f, rs !! i = Some f →
     let reported := (validateRunnable i f (fns_before rs i) []).2 in
     (reported = [DuplicateFn (namespaced_name f)]
      ↔ ∃ j g, j < i ∧ rs !! j = Some g ∧ registers (fns_before rs j) g
               ∧ (namespaced_name f ∈ lookup_keys g
                  ∨ Runnable.Name f ∈ lookup_keys g))
     ∧ (∀ n, DuplicateFn n ∈ reported →
        reported = [DuplicateFn (namespaced_name f)])
     ∧ (length reported ≤ 1)%nat)
  ∧ runnables_problems rs
    = concat (imap (λ i f, (validateRunnable i f (fns_before rs i) []).2) rs)
  ∧ filter is_duplicate (Validate_problems IsValid order d)
    = filter is_duplicate (runnables_problems rs)
  ∧ (∀ f g, rs = [f; g] →
     Runnable.Name f = Runnable.Name g →
     Runnable.Namespace f = Runnable.Namespace g →
     Runnable.Name f ≠ "" →
     filter is_duplicate (Validate_problems IsValid order d)
     = [DuplicateFn (namespaced_name g)]).
Proof.
  intros rs. split_and!.
  - intros i f Hi reported. subst reported.
    rewrite validateRunnable_run. cbn [snd app]. split_and!.
    + rewrite runnable_problems_duplicate, !has_fns_before. split.
      * intros [(j & g & H)|(j & g & H)]; exists j, g; intuition.
      * intros (j & g & Hj & Hg & Hreg & [Hk|Hk]); [left|right];
          exists j, g; done.
    + apply runnable_problems_no_duplicate.
    + unfold runnable_problems. repeat case_match; cbn; lia.
  - unfold runnables_problems. f_equal. apply imap_ext. intros i f _.
    by rewrite validateRunnable_run.
  - apply Validate_duplicates.
  - intros f g Hrs Hname Hns Hnonempty. rewrite Validate_duplicates.
    fold rs. rewrite Hrs. unfold runnables_problems.
    cbn [imap concat compose]. rewrite app_nil_r.
    change (fns_before [f; g] 0) with (∅ : gmap string bool).
    change (fns_before [f; g] 1) with (register ∅ f).
    assert (registers ∅ f) as Hreg.
    { unfold registers. rewrite !has_empty. cbn.
      by rewrite bool_decide_eq_false_2. }
    assert (runnable_problems 1 g (register ∅ f)
            = [DuplicateFn (namespaced_name g)]) as ->.
    { apply runnable_problems_duplicate. left. apply has_register. right.
      split; [done|].
      replace (namespaced_name g) with (namespaced_name f)
        by (unfold namespaced_name; by rewrite Hname, Hns).
      apply namespaced_in_lookup_keys. }
    rewrite filter_app. rewrite (filter_none _ (runnable_problems 0 f ∅)).
    + done.
    + unfold runnable_problems. rewrite !has_empty. cbn [orb].
      rewrite bool_decide_eq_false_2 by done.
      intros p Hp. elem_cases Hp. subst. cbn. intros [].
Qed.

(** The theorem on a document with the runnable [default#fetch] twice. *)
Lemma duplicate_runnables_witness :
  filter is_duplicate
    (Validate_problems any_version order_forward
       (runnables_doc [Runnable.mk "fetch" "default";
                       Runnable.mk "fetch" "default"]))
  = [DuplicateFn "default#fetch"].
Proof.
  apply (proj2 (proj2 (proj2 (duplicate_runnables any_version order_forward
    (runnables_doc [Runnable.mk "fetch" "default";
                    Runnable.mk "fetch" "default"]))))
    (Runnable.mk "fetch" "default") (Runnable.mk "fetch" "default")
    eq_refl eq_refl eq_refl).
  done.
Defined.

(** C5, as stated, fails. A runnable of another namespace that shares its
    bare name with a default-namespace runnable is reported when the
    default-namespace runnable comes first, and not when it comes second;
    and two runnables that share [namespace#name] with an empty name give
    no duplicate defect. *)
Lemma duplicate_order_counterexample :
  Validate_problems any_version order_forward
    (runnables_doc [Runnable.mk "fetch" "default"; Runnable.mk "fetch" "other"])
  = [DuplicateFn "other#fetch"]
  ∧ Validate_problems any_version order_forward
      (runnables_doc [Runnable.mk "fetch" "other";
                      Runnable.mk "fetch" "default"])
    = []
  ∧ Validate_problems any_version order_forward
      (runnables_doc [Runnable.mk "" "other"; Runnable.mk "" "other"])
    = [FnMissingName 0; FnMissingName 1].
Proof. split_and!; vm_compute; reflexivity. Qed.

(** ** FQFN lookup (C6) *)

Lemma registerFQFN_lookup d m g k :
  registerFQFN d m g !! k
  = if decide (k ∈ lookup_keys g) then
      Some (fqfnForFunc d (Runnable.Namespace g) (Runnable.Name g))
    else m !! k.
Proof.
  unfold registerFQFN, lookup_keys.
  destruct (bool_decide (Runnable.Namespace g = NamespaceDefault)).
  - destruct (decide (namespaced_name g = k)) as [<-|Hne1].
    { rewrite lookup_insert_eq, decide_True; [done | elem_now]. }
    rewrite lookup_insert_ne by done.
    destruct (decide (Runnable.Name g = k)) as [<-|Hne2].
    { rewrite lookup_insert_eq, decide_True; [done | elem_now]. }
    rewrite lookup_insert_ne by done. rewrite decide_False; [done|].
    rewrite !elem_of_cons, elem_of_nil. intuition congruence.
  - destruct (decide (namespaced_name g = k)) as [<-|Hne1].
    { rewrite lookup_insert_eq, decide_True; [done | elem_now]. }
    rewrite lookup_insert_ne by done. rewrite decide_False; [done|].
    rewrite !elem_of_cons, elem_of_nil. intuition congruence.
Qed.

(** After the loop of [calculateFQFNs] a key maps to the FQFN of the last
    runnable registered under it. *)
Lemma calculated_lookup d m rs k :
  foldl (registerFQFN d) m rs !! k
  = match resolve rs k with
    | Some g => Some (fqfnForFunc d (Runnable.Namespace g) (Runnable.Name g))
    | None => m !! k
    end.
Proof.
  revert m. induction rs as [|g rs IH]; intros m; [done|].
  cbn [foldl]. rewrite IH. unfold resolve. rewrite filter_cons.
  destruct (last (filter (λ g0, k ∈ lookup_keys g0) rs)) as [g'|] eqn:Hlast.
  - case_decide; [rewrite last_cons|]; by rewrite Hlast.
  - rewrite registerFQFN_lookup.
    case_decide; [rewrite last_cons|]; by rewrite Hlast.
Qed.

Lemma resolve_Some rs k g :
  resolve rs k = Some g → g ∈ rs ∧ k ∈ lookup_keys g.
Proof.
  intros H%last_Some_elem_of. apply list_elem_of_filter in H. tauto.
Qed.

Lemma resolve_is_Some rs k f :
  f ∈ rs → k ∈ lookup_keys f → is_Some (resolve rs k).
Proof.
  intros Hf Hk. apply last_is_Some. intros Hnil.
  assert (f ∈ filter (λ g, k ∈ lookup_keys g) rs) as Hin
    by (by apply list_elem_of_filter).
  rewrite Hnil in Hin. by apply elem_of_nil in Hin.
Qed.

Lemma resolve_None rs k :
  (∀ g, g ∈ rs → k ∉ lookup_keys g) → resolve rs k = None.
Proof.
  intros Hno. apply last_None, filter_none. intros g Hg. by apply Hno.
Qed.

Lemma has_hash_app a b : has_hash (a +:+ b) = has_hash a || has_hash b.
Proof.
  induction a as [|c a IH]; [done|].
  change (has_hash (String c (a +:+ b))
          = has_hash (String c a) || has_hash b).
  cbn [has_hash]. by rewrite IH, orb_assoc.
Qed.

Lemma has_hash_namespaced f : has_hash (namespaced_name f) = true.
Proof.
  unfold namespaced_name. rewrite !has_hash_app. cbn. apply orb_true_r.
Qed.

Lemma fqfnForFunc_namespaced d f :
  fqfnForFunc d (Runnable.Namespace f) (Runnable.Name f)
  = namespaced_name f +:+ "@" +:+ Directive.AppVersion d.
Proof.
  unfold fqfnForFunc, namespaced_name. by rewrite !string_app_assoc.
Qed.

(** What a lookup returns, for a directive with a valid cache. *)
Lemma FQFN_resolve d k :
  cache_valid d →
  (FQFN d k).2
  = match resolve (Directive.Runnables d) k with
    | Some g => inl (fqfnForFunc d (Runnable.Namespace g) (Runnable.Name g))
    | None => inr (not_exist_error k)
    end.
Proof.
  intros Hvalid. unfold FQFN.
  assert (default ∅ (Directive.fqfns
            (if Directive.fqfns d is None then calculateFQFNs d else d)) !! k
          = foldl (registerFQFN d) ∅ (Directive.Runnables d) !! k) as ->.
  { destruct Hvalid as [->| Hc]; [done|].
    destruct (Directive.fqfns d) as [m|] eqn:Hd; [|done].
    rewrite Hd. cbn in Hc. by injection Hc as ->. }
  rewrite calculated_lookup, lookup_empty.
  by destruct (resolve (Directive.Runnables d) k).
Qed.

Lemma FQFN_namespaced d f :
  cache_valid d → f ∈ Directive.Runnables d →
  (∀ g, g ∈ Directive.Runnables d → has_hash (Runnable.Name g) = false) →
  (FQFN d (namespaced_name f)).2
  = inl (fqfnForFunc d (Runnable.Namespace f) (Runnable.Name f)).
Proof.
  intros Hvalid Hf Hhash. rewrite FQFN_resolve by done.
  destruct (resolve_is_Some _ _ _ Hf (namespaced_in_lookup_keys f))
    as [g Hg].
  rewrite Hg. apply resolve_Some in Hg as [Hgin Hk]. f_equal.
  rewrite !fqfnForFunc_namespaced. f_equal.
  unfold lookup_keys in Hk. case_bool_decide; elem_cases Hk.
  - apply elem_of_cons in Hk as [Hk|Hk%list_elem_of_singleton]; [|done].
    pose proof (has_hash_namespaced f) as Hh. rewrite Hk in Hh.
    by rewrite (Hhash g Hgin) in Hh.
  - done.
Qed.

Lemma FQFN_bare d f :
  cache_valid d → f ∈ Directive.Runnables d →
  Runnable.Namespace f = NamespaceDefault →
  (∀ g, g ∈ Directive.Runnables d → has_hash (Runnable.Name g) = false) →
  (FQFN d (Runnable.Name f)).2
  = inl (fqfnForFunc d (Runnable.Namespace f) (Runnable.Name f)).
Proof.
  intros Hvalid Hf Hns Hhash. rewrite FQFN_resolve by done.
  assert (Runnable.Name f ∈ lookup_keys f) as Hkf.
  { unfold lookup_keys. rewrite bool_decide_eq_true_2 by done. elem_now. }
  destruct (resolve_is_Some _ _ _ Hf Hkf) as [g Hg].
  rewrite Hg. apply resolve_Some in Hg as [Hgin Hk]. f_equal.
  unfold lookup_keys in Hk. case_bool_decide as Hgns.
  - apply elem_of_cons in Hk as [Hk|Hk%list_elem_of_singleton].
    + by rewrite Hgns, Hns, Hk.
    + pose proof (has_hash_namespaced g) as Hh. rewrite <-Hk in Hh.
      by rewrite (Hhash f Hf) in Hh.
  - apply list_elem_of_singleton in Hk.
    pose proof (has_hash_namespaced g) as Hh. rewrite <-Hk in Hh.
    by rewrite (Hhash f Hf) in Hh.
Qed.

(** C6 (amended). For a directive whose cache is empty or up to date, a
    lookup returns the FQFN [namespace#name@appVersion] of the last runnable
    registered under the key, and the not-found error naming the key when
    no runnable is registered under it. A default-namespace runnable named
    [foo] is registered under [foo] and under [default#foo] (the version is
    not part of the key): both lookups succeed, and both return
    [default#foo@appVersion] when no runnable name contains [#]. A runnable
    of another namespace is registered under [namespace#name] only: a key
    that resolves to it is that key. *)
Theorem fqfn_lookup d :
  cache_valid d →
  let rs := Directive.Runnables d in
  (∀ k, (FQFN d k).2
        = match resolve rs k with
          | Some g =>
              inl (Runnable.Namespace g +:+ "#" +:+ Runnable.Name g
                   +:+ "@" +:+ Directive.AppVersion d)
          | None => inr ("fn " +:+ k +:+ " does not exist")
          end)
  ∧ (∀ f, f ∈ rs → Runnable.Namespace f = NamespaceDefault →
     (∃ fqfn, (FQFN d (Runnable.Name f)).2 = inl fqfn)
     ∧ (∃ fqfn, (FQFN d ("default#" +:+ Runnable.Name f)).2 = inl fqfn)
     ∧ ((∀ g, g ∈ rs → has_hash (Runnable.Name g) = false) →
        (FQFN d (Runnable.Name f)).2
        = inl ("default#" +:+ Runnable.Name f
               +:+ "@" +:+ Directive.AppVersion d)
        ∧ (FQFN d ("default#" +:+ Runnable.Name f)).2
          = inl ("default#" +:+ Runnable.Name f
                 +:+ "@" +:+ Directive.AppVersion d)))
  ∧ (∀ f, f ∈ rs → Runnable.Namespace f ≠ NamespaceDefault →
     (∃ fqfn, (FQFN d (namespaced_name f)).2 = inl fqfn)
     ∧ (∀ k, resolve rs k = Some f → k = namespaced_name f)
     ∧ ((∀ g, g ∈ rs → has_hash (Runnable.Name g) = false) →
        (FQFN d (namespaced_name f)).2
        = inl (Runnable.Namespace f +:+ "#" +:+ Runnable.Name f
               +:+ "@" +:+ Directive.AppVersion d)))
  ∧ (∀ k, (∀ g, g ∈ rs → k ∉ lookup_keys g) →
     (FQFN d k).2 = inr ("fn " +:+ k +:+ " does not exist")).
Proof.
  intros Hvalid rs. subst rs.
  assert (∀ f k, f ∈ Directive.Runnables d → k ∈ lookup_keys f →
    ∃ fqfn, (FQFN d k).2 = inl fqfn) as Hfound.
  { intros f k Hf Hk. rewrite FQFN_resolve by done.
    destruct (resolve_is_Some _ _ _ Hf Hk) as [g ->]. eauto. }
  split_and!.
  - intros k. by rewrite FQFN_resolve.
  - intros f Hf Hns.
    assert ("default#" +:+ Runnable.Name f = namespaced_name f) as Hkey
      by (unfold namespaced_name; by rewrite Hns).
    split_and!.
    + apply (Hfound f); [done|]. unfold lookup_keys.
      rewrite bool_decide_eq_true_2 by done. elem_now.
    + rewrite Hkey. apply (Hfound f); [done|].
      apply namespaced_in_lookup_keys.
    + intros Hhash. rewrite Hkey.
      rewrite FQFN_bare, FQFN_namespaced by done.
      unfold fqfnForFunc. by rewrite Hns.
  - intros f Hf Hns. split_and!.
    + apply (Hfound f); [done | apply namespaced_in_lookup_keys].
    + intros k [_ Hk]%resolve_Some. unfold lookup_keys in Hk.
      rewrite bool_decide_eq_false_2 in Hk by done.
      by apply list_elem_of_singleton in Hk.
    + intros Hhash. by rewrite FQFN_namespaced.
  - intros k Hno. rewrite FQFN_resolve by done.
    by rewrite resolve_None.
Qed.

(** The theorem on the sample document with two namespaces. *)
Lemma fqfn_lookup_witness :
  (FQFN two_namespaces "fetch").2 = inl "default#fetch@v0.1.0"
  ∧ (FQFN two_namespaces "default#fetch").2 = inl "default#fetch@v0.1.0".
Proof.
  refine (proj2 (proj2 (proj1 (proj2
    (fqfn_lookup two_namespaces (or_introl eq_refl)))
    (Runnable.mk "fetch" "default") _ eq_refl)) _).
  - left.
  - intros g Hg. unfold two_namespaces, runnables_doc in Hg. cbn in Hg.
    apply elem_of_cons in Hg as [->|Hg]; [reflexivity|].
    apply list_elem_of_singleton in Hg as ->. reflexivity.
Defined.

(** C6, as stated, fails: on the sample document, whose runnable [fetch] is
    in the default namespace, the lookup under [default#fetch@v0.1.0] fails;
    the key of the namespaced form is [default#fetch]. And a lookup reads a
    cache that was computed before the runnable was declared as it is. *)
Lemma fqfn_key_counterexample :
  (FQFN (demo [] "") "default#fetch@v0.1.0").2
  = inr "fn default#fetch@v0.1.0 does not exist"
  ∧ (FQFN (demo [] "") "default#fetch").2 = inl "default#fetch@v0.1.0"
  ∧ (FQFN (demo [] "") "fetch").2 = inl "default#fetch@v0.1.0"
  ∧ (FQFN (set_fqfns (demo [] "") ∅) "fetch").2
    = inr "fn fetch does not exist".
Proof. split_and!; vm_compute; reflexivity. Qed.

(** * Further properties of the code *)

(** ** Splitting on the separator *)

Lemma string_app_cons c (a b : string) :
  String c a +:+ b = String c (a +:+ b).
Proof. reflexivity. Qed.

(** One step of [strings.Split(w, ": ")]. *)
Lemma split_from_step cur c rest :
  split_from cur (String c rest)
  = if Ascii.eqb c ":" then
      match rest with
      | String c' rest' =>
          if Ascii.eqb c' " " then cur :: split_from "" rest'
          else split_from (cur +:+ String c "") rest
      | EmptyString => split_from (cur +:+ String c "") rest
      end
    else split_from (cur +:+ String c "") rest.
Proof.
  destruct c as [[] [] [] [] [] [] [] []]; try reflexivity.
  destruct rest as [|c' rest']; [reflexivity|].
  destruct c' as [[] [] [] [] [] [] [] []]; reflexivity.
Qed.

Lemma split_from_nonempty cur w : split_from cur w ≠ [].
Proof.
  revert cur. induction w as [|c rest IH]; intros cur; [done|].
  rewrite split_from_step. repeat case_match; done.
Qed.

Lemma split_no_sep w cur :
  has_sep w = false → split_from cur w = [cur +:+ w].
Proof.
  revert cur. induction w as [|c rest IH]; intros cur Hw.
  - cbn. by rewrite string_app_empty_r.
  - cbn [has_sep] in Hw. apply orb_false_iff in Hw as [Hhere Hrest].
    rewrite split_from_step.
    assert (split_from (cur +:+ String c "") rest = [cur +:+ String c rest])
      as Hnext.
    { rewrite (IH _ Hrest). by rewrite string_app_assoc. }
    destruct (Ascii.eqb c ":"); [|done].
    destruct rest as [|c' rest']; [done|].
    cbn [andb] in Hhere. by rewrite Hhere.
Qed.

Lemma split_sep_parts w cur :
  has_sep w = true → (2 ≤ length (split_from cur w))%nat.
Proof.
  revert cur. induction w as [|c rest IH]; intros cur Hw; [done|].
  rewrite split_from_step. cbn [has_sep] in Hw.
  destruct (Ascii.eqb c ":") eqn:Hc; cbn [andb orb] in Hw.
  - destruct rest as [|c' rest']; [done|].
    destruct (Ascii.eqb c' " ") eqn:Hc'.
    + cbn [length]. pose proof (split_from_nonempty "" rest') as Hne.
      destruct (split_from "" rest'); [done | cbn; lia].
    + cbn [orb] in Hw. by apply IH.
  - by apply IH.
Qed.

Lemma split_app_sep a k cur :
  has_sep a = false →
  split_from cur (a +:+ ": " +:+ k) = (cur +:+ a) :: split_from "" k.
Proof.
  revert cur. induction a as [|c a IH]; intros cur Ha.
  - change ("" +:+ ": " +:+ k) with (String ":" (String " " k)).
    rewrite split_from_step. cbn. by rewrite string_app_empty_r.
  - cbn [has_sep] in Ha. apply orb_false_iff in Ha as [Hhere Hrest].
    rewrite string_app_cons, split_from_step, (IH _ Hrest).
    rewrite string_app_assoc.
    change (String c "" +:+ a) with (String c a).
    destruct (Ascii.eqb c ":"); [|done].
    destruct a as [|c' a'].
    + done.
    + rewrite string_app_cons. cbn [andb] in Hhere. by rewrite Hhere.
Qed.

Lemma join_split_from w cur :
  String.concat ": " (split_from cur w) = cur +:+ w.
Proof.
  assert (∀ n w, (String.length w ≤ n)%nat →
    ∀ cur, String.concat ": " (split_from cur w) = cur +:+ w) as Hind.
  { clear. induction n as [|n IH]; intros w Hlen cur.
    - destruct w; [|cbn in Hlen; lia]. cbn. by rewrite string_app_empty_r.
    - destruct w as [|c rest].
      { cbn. by rewrite string_app_empty_r. }
      cbn [String.length] in Hlen. rewrite split_from_step.
      assert (String.concat ": " (split_from (cur +:+ String c "") rest)
              = cur +:+ String c rest) as Hnext
        by (rewrite IH by lia; by rewrite string_app_assoc).
      destruct (Ascii.eqb c ":") eqn:Hc; [|done].
      destruct rest as [|c' rest']; [done|].
      destruct (Ascii.eqb c' " ") eqn:Hc'; [|done].
      apply Ascii.eqb_eq in Hc as ->. apply Ascii.eqb_eq in Hc' as ->.
      cbn [String.length] in Hlen.
      pose proof (split_from_nonempty "" rest') as Hne.
      pose proof (IH rest' ltac:(lia) "") as Hrest.
      cbn [String.concat].
      destruct (split_from "" rest') as [|x l]; [done|].
      by rewrite Hrest. }
  by apply (Hind (String.length w)).
Qed.

(** Splitting a string on [": "] and joining the parts with [": "] gives
    the string back; there is always at least one part, and exactly one —
    the string itself — exactly when the separator does not occur. *)
Lemma split_join w :
  String.concat ": " (Split_colon_space w) = w
  ∧ Split_colon_space w ≠ []
  ∧ (Split_colon_space w = [w] ↔ has_sep w = false)
  ∧ (length (Split_colon_space w) = 1 ↔ has_sep w = false).
Proof.
  unfold Split_colon_space. split_and!.
  - apply join_split_from.
  - apply split_from_nonempty.
  - split.
    + intros Hone. destruct (has_sep w) eqn:Hsep; [|done].
      apply (split_sep_parts w "") in Hsep. rewrite Hone in Hsep.
      cbn in Hsep. lia.
    + intros Hsep. by rewrite split_no_sep.
  - split.
    + intros Hone. destruct (has_sep w) eqn:Hsep; [|done].
      apply (split_sep_parts w "") in Hsep. lia.
    + intros Hsep. by rewrite split_no_sep.
Qed.

(** ** [ParseWith] *)

Lemma two_parts_split w :
  two_parts w → ∃ p0 p1, Split_colon_space w = [p0; p1].
Proof.
  unfold two_parts. intros Hlen.
  destruct (Split_colon_space w) as [|p0 [|p1 [|p2 l]]]; try done. eauto.
Qed.

(** Every entry has two parts, or there is a first one that does not. *)
Lemma first_malformed (ws : list string) :
  Forall two_parts ws
  ∨ ∃ pre w post, ws = pre ++ w :: post ∧ Forall two_parts pre ∧ ¬ two_parts w.
Proof.
  induction ws as [|w ws IH]; [by left|].
  destruct (decide (two_parts w)) as [Hw|Hw].
  - destruct IH as [Hall|(pre & w' & post & -> & Hpre & Hw')].
    + left. by constructor.
    + right. exists (w :: pre), w', post. split_and!; [done| |done].
      by constructor.
  - right. exists [], w, ws. split_and!; done.
Qed.

(** The loop of [ParseWith] on well-formed entries fills the slice. *)
Lemma parse_entries_all ws (filled rest : list Alias.t) :
  Forall two_parts ws → length rest = length ws →
  parse_entries (length filled) ws (filled ++ rest)
  = (filled ++ (parse_alias <$> ws), None).
Proof.
  revert filled rest. induction ws as [|w ws IH]; intros filled rest Hall Hlen.
  - destruct rest; [|done]. done.
  - destruct rest as [|r rest]; [done|]. cbn in Hlen.
    apply Forall_cons in Hall as [Hw Hall].
    destruct (two_parts_split w Hw) as (p0 & p1 & Hsplit).
    cbn [parse_entries fmap list_fmap]. unfold parse_alias. rewrite Hsplit.
    replace (<[length filled := Alias.mk p1 p0]> (filled ++ r :: rest))
      with ((filled ++ [Alias.mk p1 p0]) ++ rest).
    2:{ rewrite <-(Nat.add_0_r (length filled)), insert_app_r.
        by rewrite <-app_assoc. }
    replace (S (length filled)) with (length (filled ++ [Alias.mk p1 p0]))
      by (rewrite length_app; cbn; lia).
    rewrite IH by (done || lia). by rewrite <-app_assoc.
Qed.

(** The loop of [ParseWith] stops at the first malformed entry and leaves
    the rest of the slice as it is. *)
Lemma parse_entries_stop pre w post (filled rest : list Alias.t) :
  Forall two_parts pre → ¬ two_parts w →
  length rest = length (pre ++ w :: post) →
  parse_entries (length filled) (pre ++ w :: post) (filled ++ rest)
  = (filled ++ (parse_alias <$> pre) ++ drop (length pre) rest,
     Some (with_format_error (length (Split_colon_space w)))).
Proof.
  revert filled rest.
  induction pre as [|w' pre IH]; intros filled rest Hpre Hw Hlen.
  - cbn [app parse_entries fmap list_fmap length drop].
    unfold two_parts in Hw.
    destruct (Split_colon_space w) as [|p0 [|p1 [|p2 l]]]; done.
  - destruct rest as [|r rest]; [done|]. cbn in Hlen.
    apply Forall_cons in Hpre as [Hw' Hpre].
    destruct (two_parts_split w' Hw') as (p0 & p1 & Hsplit).
    cbn [app parse_entries fmap list_fmap length drop].
    unfold parse_alias at 1. rewrite Hsplit.
    replace (<[length filled := Alias.mk p1 p0]> (filled ++ r :: rest))
      with ((filled ++ [Alias.mk p1 p0]) ++ rest).
    2:{ rewrite <-(Nat.add_0_r (length filled)), insert_app_r.
        by rewrite <-app_assoc. }
    replace (S (length filled)) with (length (filled ++ [Alias.mk p1 p0]))
      by (rewrite length_app; cbn; lia).
    rewrite IH by (done || lia). by rewrite <-!app_assoc.
Qed.

(** [ParseWith] on a call without cached bindings whose entries all have
    two parts, and on one with a first entry that does not. *)
Lemma ParseWith_all c :
  CallableFn.DesiredState c = [] → Forall two_parts (CallableFn.With c) →
  ParseWith c
  = (set_DesiredState c (parse_alias <$> CallableFn.With c),
     inl (parse_alias <$> CallableFn.With c)).
Proof.
  intros Hempty Hall. unfold ParseWith, nonempty.
  rewrite Hempty. cbn [length negb]. rewrite bool_decide_eq_true_2 by done.
  cbn [negb].
  pose proof (parse_entries_all _ [] _ Hall
    (length_replicate (length (CallableFn.With c)) Alias.zero)) as Hrun.
  cbn [length app] in Hrun. by rewrite Hrun.
Qed.

Lemma ParseWith_stop c pre w post :
  CallableFn.DesiredState c = [] → CallableFn.With c = pre ++ w :: post →
  Forall two_parts pre → ¬ two_parts w →
  ParseWith c
  = (set_DesiredState c
       ((parse_alias <$> pre) ++ replicate (S (length post)) Alias.zero),
     inr (with_format_error (length (Split_colon_space w)))).
Proof.
  intros Hempty Hws Hpre Hw. unfold ParseWith, nonempty.
  rewrite Hempty. cbn [length negb]. rewrite bool_decide_eq_true_2 by done.
  cbn [negb]. rewrite Hws.
  pose proof (parse_entries_stop pre w post [] _ Hpre Hw
    (length_replicate (length (pre ++ w :: post)) Alias.zero)) as Hrun.
  cbn [length app] in Hrun. rewrite Hrun. cbn [app].
  assert (drop (length pre) (replicate (length (pre ++ w :: post)) Alias.zero)
          = replicate (S (length post)) Alias.zero) as ->; [|done].
  rewrite drop_replicate. f_equal. rewrite length_app. cbn. lia.
Qed.

(** X1. [ParseWith] on a call without cached bindings: the slice it stores
    in the receiver has one entry per [with] entry whether it succeeds or
    not, and the other fields of the receiver stay; it succeeds exactly
    when every entry splits into two parts, and then returns the parsed
    entries, which are what it stored; otherwise the error gives the number
    of parts of the first malformed entry, and the slice holds the entries
    parsed before that one followed by zero values. *)
Theorem ParseWith_result c :
  CallableFn.DesiredState c = [] →
  let after := (ParseWith c).1 in
  length (CallableFn.DesiredState after) = length (CallableFn.With c)
  ∧ after = set_DesiredState c (CallableFn.DesiredState after)
  ∧ ((∃ ds, (ParseWith c).2 = inl ds) ↔ Forall two_parts (CallableFn.With c))
  ∧ (∀ ds, (ParseWith c).2 = inl ds →
     ds = parse_alias <$> CallableFn.With c
     ∧ CallableFn.DesiredState after = ds)
  ∧ (∀ err, (ParseWith c).2 = inr err →
     ∃ pre w post,
       CallableFn.With c = pre ++ w :: post
       ∧ Forall two_parts pre ∧ ¬ two_parts w
       ∧ err = with_format_error (length (Split_colon_space w))
       ∧ CallableFn.DesiredState after
         = (parse_alias <$> pre) ++ replicate (S (length post)) Alias.zero).
Proof.
  intros Hempty after. subst after.
  destruct (first_malformed (CallableFn.With c))
    as [Hall|(pre & w & post & Hws & Hpre & Hw)].
  - rewrite (ParseWith_all c Hempty Hall).
    cbn [fst snd set_DesiredState CallableFn.DesiredState].
    split_and!.
    + apply length_fmap.
    + done.
    + split; [done | eauto].
    + by intros ds [= <-].
    + done.
  - rewrite (ParseWith_stop c pre w post Hempty Hws Hpre Hw).
    cbn [fst snd set_DesiredState CallableFn.DesiredState].
    split_and!.
    + rewrite Hws, length_app, length_fmap, length_replicate, length_app. done.
    + done.
    + split; [by intros [ds ?]|]. intros Hall. exfalso. apply Hw.
      rewrite Hws in Hall. apply Forall_app in Hall as [_ Hall].
      by apply Forall_cons in Hall as [? _].
    + done.
    + intros err [= <-]. exists pre, w, post. done.
Qed.

(** The theorem on the call whose second entry is malformed. *)
Lemma ParseWith_result_witness :
  length (CallableFn.DesiredState (ParseWith second_malformed).1)
  = length (CallableFn.With second_malformed).
Proof. apply (ParseWith_result second_malformed eq_refl). Defined.

(** X2. A second [ParseWith] on the receiver of a first one: after a
    success it returns the same entries and leaves the receiver as it is;
    after a failure it returns the slice the first call left, zero values
    included, and no error. *)
Theorem ParseWith_again c :
  CallableFn.DesiredState c = [] →
  let after := (ParseWith c).1 in
  (∀ ds, (ParseWith c).2 = inl ds → ParseWith after = (after, inl ds))
  ∧ (∀ err, (ParseWith c).2 = inr err →
     ParseWith after = (after, inl (CallableFn.DesiredState after))
     ∧ Alias.zero ∈ CallableFn.DesiredState after).
Proof.
  intros Hempty after. subst after.
  destruct (first_malformed (CallableFn.With c))
    as [Hall|(pre & w & post & Hws & Hpre & Hw)].
  - rewrite (ParseWith_all c Hempty Hall). cbn [fst snd].
    split; [|done]. intros ds [= <-].
    destruct (CallableFn.With c) as [|w ws] eqn:Hwith.
    + unfold ParseWith, nonempty, set_DesiredState. cbn. by rewrite Hwith.
    + done.
  - rewrite (ParseWith_stop c pre w post Hempty Hws Hpre Hw). cbn [fst snd].
    split; [done|]. intros err _. split.
    + unfold ParseWith, nonempty.
      cbn [set_DesiredState CallableFn.DesiredState].
      rewrite length_app. cbn [length replicate].
      rewrite bool_decide_eq_false_2 by lia. done.
    + cbn [set_DesiredState CallableFn.DesiredState].
      apply elem_of_app. right. left.
Qed.

(** The theorem on the call whose second entry is malformed. *)
Lemma ParseWith_again_witness :
  ParseWith (ParseWith second_malformed).1
  = ((ParseWith second_malformed).1,
     inl (CallableFn.DesiredState (ParseWith second_malformed).1))
  ∧ Alias.zero ∈ CallableFn.DesiredState (ParseWith second_malformed).1.
Proof.
  apply (proj2 (ParseWith_again second_malformed eq_refl)
    (with_format_error 1)).
  reflexivity.
Defined.

Lemma split_format_alias a :
  has_sep (Alias.Alias a) = false → has_sep (Alias.Key a) = false →
  Split_colon_space (format_alias a) = [Alias.Alias a; Alias.Key a].
Proof.
  intros Ha Hk. unfold Split_colon_space, format_alias.
  rewrite split_app_sep by done. by rewrite split_no_sep.
Qed.

(** X3. Bindings written as ["<alias>: <key>"] parse back: when neither
    the alias nor the key of any binding contains [": "], [ParseWith] on
    the call whose [with] entries are the formatted bindings returns the
    bindings. *)
Theorem ParseWith_format c ds :
  CallableFn.DesiredState c = [] →
  CallableFn.With c = format_alias <$> ds →
  Forall (λ a, has_sep (Alias.Alias a) = false
               ∧ has_sep (Alias.Key a) = false) ds →
  (ParseWith c).2 = inl ds.
Proof.
  intros Hempty Hwith Hds.
  assert (∀ a, a ∈ ds → Split_colon_space (format_alias a)
                        = [Alias.Alias a; Alias.Key a]) as Hsplit.
  { intros a Ha. rewrite Forall_forall in Hds.
    destruct (Hds a Ha). by apply split_format_alias. }
  assert (Forall two_parts (CallableFn.With c)) as Hall.
  { rewrite Hwith. apply Forall_fmap, Forall_forall. intros a Ha.
    unfold two_parts. cbn. by rewrite (Hsplit a Ha). }
  rewrite (ParseWith_all c Hempty Hall). cbn [snd]. f_equal.
  rewrite Hwith, <-list_fmap_compose.
  rewrite <-(list_fmap_id ds) at 2. apply list_fmap_ext.
  intros i a Ha. cbn. unfold parse_alias.
  rewrite (Hsplit a) by (by eapply list_elem_of_lookup_2). by destruct a.
Qed.

(** The theorem on the two bindings of the sample call. *)
Lemma ParseWith_format_witness :
  (ParseWith two_bindings).2
  = inl [Alias.mk "fetch" "user"; Alias.mk "fetch" "id"].
Proof.
  apply (ParseWith_format two_bindings
    [Alias.mk "fetch" "user"; Alias.mk "fetch" "id"] eq_refl eq_refl).
  repeat constructor.
Defined.

(** ** [NumberOfSeconds] *)

Lemma wrap64_add_l a b : wrap64 (wrap64 a + b) = wrap64 (a + b).
Proof.
  unfold wrap64. generalize (2 ^ 63)%Z (2 ^ 64)%Z. intros h m. f_equal.
  replace ((a + h) `mod` m - h + b + h)%Z
    with ((a + h) `mod` m + b)%Z by ring.
  rewrite Zplus_mod_idemp_l. f_equal. ring.
Qed.

Lemma wrap64_add_r a b : wrap64 (a + wrap64 b) = wrap64 (a + b).
Proof. by rewrite Z.add_comm, wrap64_add_l, Z.add_comm. Qed.

Lemma wrap64_range z : (- 2 ^ 63 ≤ wrap64 z < 2 ^ 63)%Z.
Proof.
  unfold wrap64.
  pose proof (Z.mod_pos_bound (z + 2 ^ 63) (2 ^ 64) ltac:(done)) as Hmod.
  change (2 ^ 64)%Z with (2 * 2 ^ 63)%Z in *.
  revert Hmod. generalize (2 ^ 63)%Z. intros h Hmod. lia.
Qed.

(** X4. [NumberOfSeconds] is the summed interval
    seconds + 60·minutes + 3600·hours + 86400·days reduced to the range of
    an [int]: an overflow in a product or in a partial sum does not show in
    the result as long as the sum itself is in range, and a sum out of
    range wraps around. *)
Theorem NumberOfSeconds_wraps s :
  NumberOfSeconds s = wrap64 (interval_sum s)
  ∧ (- 2 ^ 63 ≤ NumberOfSeconds s < 2 ^ 63)%Z
  ∧ ((- 2 ^ 63 ≤ interval_sum s < 2 ^ 63)%Z →
     NumberOfSeconds s = interval_sum s)
  ∧ ((NumberOfSeconds s - interval_sum s) `mod` 2 ^ 64 = 0)%Z.
Proof.
  assert (NumberOfSeconds s = wrap64 (interval_sum s)) as Heq.
  { unfold NumberOfSeconds, interval_sum, add64, mul64. cbn zeta.
    change (wrap64 (60 * 60)) with 3600%Z.
    change (wrap64 (3600 * 24)) with 86400%Z.
    set (sec := ScheduleEvery.Seconds _).
    set (x1 := (60 * _)%Z). set (x2 := (3600 * _)%Z).
    set (x3 := (86400 * _)%Z).
    rewrite wrap64_add_l.
    replace (wrap64 (sec + wrap64 x1) + wrap64 x2 + wrap64 x3)%Z
      with (wrap64 (sec + wrap64 x1) + (wrap64 x2 + wrap64 x3))%Z by ring.
    rewrite wrap64_add_l.
    replace (sec + wrap64 x1 + (wrap64 x2 + wrap64 x3))%Z
      with (sec + wrap64 x2 + wrap64 x3 + wrap64 x1)%Z by ring.
    rewrite wrap64_add_r.
    replace (sec + wrap64 x2 + wrap64 x3 + x1)%Z
      with (sec + wrap64 x3 + x1 + wrap64 x2)%Z by ring.
    rewrite wrap64_add_r.
    replace (sec + wrap64 x3 + x1 + x2)%Z
      with (sec + x1 + x2 + wrap64 x3)%Z by ring.
    by rewrite wrap64_add_r. }
  split; [|split; [|split]].
  - done.
  - rewrite Heq. apply wrap64_range.
  - intros Hrange. rewrite Heq.
    change (2 ^ 63)%Z with 9223372036854775808%Z in Hrange.
    by apply wrap64_small.
  - rewrite Heq. unfold wrap64. generalize (interval_sum s). intros z.
    replace ((z + 2 ^ 63) `mod` 2 ^ 64 - 2 ^ 63 - z)%Z
      with ((z + 2 ^ 63) `mod` 2 ^ 64 - (z + 2 ^ 63))%Z by ring.
    rewrite Zminus_mod_idemp_l, Z.sub_diag. done.
Qed.

(** The theorem at the schedule that runs every 90 seconds. *)
Lemma NumberOfSeconds_wraps_witness : NumberOfSeconds every_90s = 90%Z.
Proof.
  apply (proj1 (proj2 (proj2 (NumberOfSeconds_wraps every_90s)))).
  split; [by vm_compute | by vm_compute].
Defined.

(** ** The shape of a step *)

(** X5. The three shapes of a step exclude one another, and a step with a
    group that is present and empty has none of them, whatever its other
    fields hold. *)
Theorem step_shapes s :
  IsFn s && IsGroup s = false
  ∧ IsFn s && IsForEach s = false
  ∧ IsGroup s && IsForEach s = false
  ∧ (Executable.Group s = Some [] →
     IsFn s = false ∧ IsGroup s = false ∧ IsForEach s = false).
Proof.
  unfold IsFn, IsGroup, IsForEach, nonempty.
  destruct (Executable.Group s) as [[|fn g]|], (Executable.ForEach s);
    repeat case_bool_decide; done.
Qed.

(** The theorem at a step with an empty group. *)
Lemma step_shapes_witness :
  IsFn (Executable.mk (call "fetch") (Some []) None) = false
  ∧ IsGroup (Executable.mk (call "fetch") (Some []) None) = false
  ∧ IsForEach (Executable.mk (call "fetch") (Some []) None) = false.
Proof.
  apply (step_shapes (Executable.mk (call "fetch") (Some []) None)).
  reflexivity.
Defined.

Lemma fn_problems_not_shape order t name j fns st fn p j' t' name' :
  p ∈ fn_problems order t name j fns st fn → p ≠ StepBadShape j' t' name'.
Proof.
  unfold fn_problems. intros H. elem_cases H; try (by subst).
  - by apply elem_of_key_problems in H as (d & _ & _ & ->).
  - unfold onErr_problems, any_problems, other_problems in H.
    elem_cases H; try (by subst).
    by apply elem_of_code_problems in H as (? & ? & _ & _ & ->).
Qed.

(** X6. A step reports the shape defect exactly when it is none of a
    single call, a group and a for-each; it reports nothing else then,
    validates none of its calls and leaves the state set as it is. *)
Theorem malformed_step order t name fns j s st :
  (StepBadShape j t name ∈ (validateStep order t name fns j s st []).2
   ↔ IsFn s = false ∧ IsGroup s = false ∧ IsForEach s = false)
  ∧ (IsFn s = false → IsGroup s = false → IsForEach s = false →
     ∀ p0, validateStep order t name fns j s st p0
           = (st, p0 ++ [StepBadShape j t name])).
Proof.
  split.
  - rewrite validateStep_run. cbn [snd app]. unfold step_problems. split.
    + intros [H|H]%elem_of_app.
      * unfold shape_problems in H.
        destruct (IsFn s), (IsGroup s), (IsForEach s);
          cbn [negb andb orb] in H; elem_cases H; done.
      * apply list_elem_of_bind in H as (fn & H & _).
        exfalso. by eapply fn_problems_not_shape.
    + intros (HFn & HGroup & HEach). unfold shape_problems.
      rewrite HFn, HGroup, HEach. cbn [negb andb]. elem_now.
  - intros HFn HGroup HEach p0. rewrite validateStep_run.
    unfold step_problems, shape_problems, visited_calls, step_keys.
    rewrite HFn, HGroup, HEach. done.
Qed.

(** The theorem at a step with an empty group. *)
Lemma malformed_step_witness :
  validateStep order_forward executableTypeHandler "GET /x" ∅ 0
    (Executable.mk (call "fetch") (Some []) None) ∅ []
  = (∅, [StepBadShape 0 executableTypeHandler "GET /x"]).
Proof.
  apply (proj2 (malformed_step order_forward executableTypeHandler "GET /x"
    ∅ 0 (Executable.mk (call "fetch") (Some []) None) ∅)); reflexivity.
Defined.

(** ** The FQFN cache *)

Lemma FQFN_fst d k :
  (FQFN d k).1 = if Directive.fqfns d is None then calculateFQFNs d else d.
Proof. unfold FQFN. cbv zeta. by destruct (_ !! k). Qed.

Lemma FQFN_snd d k :
  (FQFN d k).2
  = match default ∅ (Directive.fqfns (FQFN d k).1) !! k with
    | Some fqfn => inl fqfn
    | None => inr (not_exist_error k)
    end.
Proof. rewrite FQFN_fst. unfold FQFN. cbv zeta. by destruct (_ !! k). Qed.

(** X7. A lookup leaves every field of the directive but the cache as it
    is; the cache afterwards is the one that was there, or the one computed
    from the runnables if there was none. Every later lookup answers from
    that cache and leaves the directive as it is — as the first lookup would
    have answered, also after the runnables were replaced. *)
Theorem FQFN_cache d k :
  let d' := (FQFN d k).1 in
  d' = set_fqfns d
         (default (foldl (registerFQFN d) ∅ (Directive.Runnables d))
            (Directive.fqfns d))
  ∧ (∀ k', FQFN d' k' = (d', (FQFN d k').2))
  ∧ (∀ rs k', (FQFN (set_Runnables d' rs) k').2 = (FQFN d k').2).
Proof.
  intros d'.
  assert (d' = set_fqfns d
    (default (foldl (registerFQFN d) ∅ (Directive.Runnables d))
       (Directive.fqfns d))) as Hd'.
  { subst d'. rewrite FQFN_fst. destruct d as [? ? ? ? ? ? [m|]]; reflexivity. }
  assert (∀ k', (FQFN d k').2
    = match default (foldl (registerFQFN d) ∅ (Directive.Runnables d))
              (Directive.fqfns d) !! k' with
      | Some fqfn => inl fqfn
      | None => inr (not_exist_error k')
      end) as Hfirst.
  { intros k'. rewrite FQFN_snd, FQFN_fst.
    destruct (Directive.fqfns d) eqn:Hc; [by rewrite Hc | reflexivity]. }
  split_and!.
  - done.
  - intros k'. apply injective_projections.
    + rewrite FQFN_fst, Hd'. reflexivity.
    + rewrite FQFN_snd, FQFN_fst, Hfirst, Hd'. reflexivity.
  - intros rs k'. rewrite FQFN_snd, FQFN_fst, Hfirst, Hd'. reflexivity.
Qed.

(** ** The functions a step may call *)

Lemma validateRunnables_run rs p :
  range_from validateRunnable 0 rs ∅ p
  = (known_fns rs, p ++ runnables_problems rs).
Proof. apply validateRunnables_from_run. Qed.

Lemma known_fns_all rs : known_fns rs = fns_before rs (length rs).
Proof. unfold known_fns, fns_before. by rewrite firstn_all. Qed.

Lemma has_known_fns rs k :
  has (known_fns rs) k
  ↔ ∃ j g, rs !! j = Some g ∧ registers (fns_before rs j) g
           ∧ k ∈ lookup_keys g.
Proof.
  rewrite known_fns_all, has_fns_before. split.
  - intros (j & g & _ & H). eauto.
  - intros (j & g & Hg & H). exists j, g. split; [|done].
    by eapply lookup_lt_Some.
Qed.

Lemma concat_imap_nil {A B} (f : nat → A → list B) (l : list A) :
  concat (imap f l) = [] ↔ ∀ i x, l !! i = Some x → f i x = [].
Proof.
  split.
  - intros Hnil i x Hi. apply elem_of_nil_inv. intros y Hy.
    assert (y ∈ concat (imap f l)) as Hin
      by (apply elem_of_concat_imap; eauto).
    rewrite Hnil in Hin. by apply elem_of_nil in Hin.
  - intros Hall. apply elem_of_nil_inv.
    intros y (i & x & Hi & Hy)%elem_of_concat_imap.
    rewrite (Hall i x Hi) in Hy. by apply elem_of_nil in Hy.
Qed.

Lemma concat_fmap_nil {A B} (f : A → list B) (l : list A) :
  concat (f <$> l) = [] ↔ ∀ x, x ∈ l → f x = [].
Proof.
  rewrite <-(imap_const f l), concat_imap_nil. split.
  - intros Hall x (i & Hi)%list_elem_of_lookup. exact (Hall i x Hi).
  - intros Hall i x Hi. apply Hall. by eapply list_elem_of_lookup_2.
Qed.

Lemma runnable_problems_nil i g fns :
  runnable_problems i g fns = []
  ↔ registers fns g ∧ Runnable.Namespace g ≠ "".
Proof.
  unfold runnable_problems, registers.
  destruct (has fns (namespaced_name g) || has fns (Runnable.Name g));
    cbn [negb andb]; [split; [done | by intros [[] _]]|].
  destruct (bool_decide (Runnable.Name g = "")); cbn [negb];
    [split; [done | by intros [[] _]]|].
  case_bool_decide as Hns.
  - split; [done | by intros [_ ?]].
  - split; [by intros _ | done].
Qed.

Lemma registers_Name fns g : registers fns g → Runnable.Name g ≠ "".
Proof.
  unfold registers. intros [_ H]%andb_True.
  apply negb_True in H. by rewrite bool_decide_spec in H.
Qed.

Lemma resolve_is_Some_iff rs k :
  is_Some (resolve rs k) ↔ ∃ g, g ∈ rs ∧ k ∈ lookup_keys g.
Proof.
  split.
  - intros [g Hg]. exists g. by apply resolve_Some.
  - intros (g & Hg & Hk). by eapply resolve_is_Some.
Qed.

(** X8. The set of function identifiers the loop over the runnables
    builds holds the keys of runnables that have a name only; when the loop
    reports no defect, it holds exactly the keys of the runnables: the
    namespaced form [namespace#name] of each, and the bare [name] of each
    runnable of the default namespace. *)
Theorem callable_names rs k :
  let run := range_from validateRunnable 0 rs ∅ [] in
  (has run.1 k →
   ∃ g, g ∈ rs ∧ Runnable.Name g ≠ ""
        ∧ (k = namespaced_name g
           ∨ (Runnable.Namespace g = NamespaceDefault ∧ k = Runnable.Name g)))
  ∧ (run.2 = [] →
     (has run.1 k
      ↔ ∃ g, g ∈ rs
             ∧ (k = namespaced_name g
                ∨ (Runnable.Namespace g = NamespaceDefault
                   ∧ k = Runnable.Name g)))).
Proof.
  intros run. subst run. rewrite validateRunnables_run. cbn [fst snd app].
  assert (∀ g, k ∈ lookup_keys g
    ↔ k = namespaced_name g
      ∨ (Runnable.Namespace g = NamespaceDefault ∧ k = Runnable.Name g))
    as Hkeys.
  { intros g. unfold lookup_keys. case_bool_decide;
      rewrite ?elem_of_cons, elem_of_nil; intuition. }
  split.
  - intros (j & g & Hg & Hreg & Hk)%has_known_fns. exists g.
    split_and!; [by eapply list_elem_of_lookup_2 | by eapply registers_Name
                | by apply Hkeys].
  - intros Hclean. rewrite has_known_fns. split.
    + intros (j & g & Hg & _ & Hk). exists g.
      split; [by eapply list_elem_of_lookup_2 | by apply Hkeys].
    + intros (g & (j & Hj)%list_elem_of_lookup & Hk). exists j, g.
      split_and!; [done| |by apply Hkeys].
      unfold runnables_problems in Hclean.
      rewrite concat_imap_nil in Hclean.
      pose proof (Hclean j g Hj) as Hg%runnable_problems_nil. apply Hg.
Qed.

(** The theorem on the runnables of the document with two namespaces. *)
Lemma callable_names_witness :
  has (range_from validateRunnable 0
         [Runnable.mk "fetch" "default"; Runnable.mk "get" "api"] ∅ []).1
    "api#get".
Proof.
  apply (proj2 (callable_names
    [Runnable.mk "fetch" "default"; Runnable.mk "get" "api"] "api#get")
    eq_refl).
  exists (Runnable.mk "get" "api"). split; [elem_now | by left].
Defined.

(** X9. Every function identifier that the validator knows resolves in
    the FQFN lookup of a directive with a valid cache; and when the loop
    over the runnables reports no defect, the lookup succeeds for exactly
    the identifiers the validator knows. *)
Theorem known_fn_resolves d k :
  cache_valid d →
  let run := range_from validateRunnable 0 (Directive.Runnables d) ∅ [] in
  (has run.1 k → ∃ fqfn, (FQFN d k).2 = inl fqfn)
  ∧ (run.2 = [] → (has run.1 k ↔ ∃ fqfn, (FQFN d k).2 = inl fqfn)).
Proof.
  intros Hvalid run. subst run. rewrite validateRunnables_run.
  cbn [fst snd app].
  assert ((∃ fqfn, (FQFN d k).2 = inl fqfn)
          ↔ ∃ g, g ∈ Directive.Runnables d ∧ k ∈ lookup_keys g) as Hfound.
  { rewrite FQFN_resolve, <-resolve_is_Some_iff by done.
    destruct (resolve (Directive.Runnables d) k) as [g|].
    - split; eauto.
    - split; [by intros [? ?] | by intros [? ?]]. }
  rewrite Hfound. split.
  - intros (j & g & Hg & _ & Hk)%has_known_fns. exists g.
    split; [by eapply list_elem_of_lookup_2 | done].
  - intros Hclean. rewrite has_known_fns. split.
    + intros (j & g & Hg & _ & Hk). exists g.
      split; [by eapply list_elem_of_lookup_2 | done].
    + intros (g & (j & Hj)%list_elem_of_lookup & Hk). exists j, g.
      split_and!; [done| |done].
      unfold runnables_problems in Hclean.
      rewrite concat_imap_nil in Hclean.
      pose proof (Hclean j g Hj) as Hg%runnable_problems_nil. apply Hg.
Qed.

(** The theorem on the document with two namespaces. *)
Lemma known_fn_resolves_witness :
  ∃ fqfn, (FQFN two_namespaces "fetch").2 = inl fqfn.
Proof.
  apply (proj1 (known_fn_resolves two_namespaces "fetch"
    (or_introl eq_refl))).
  vm_compute. exact I.
Defined.

(** ** The state set a sequence of steps returns *)

(** X10. The state set [validateSteps] returns holds the keys of the seed
    and the keys the steps produce, and nothing else; it does not depend on
    the defects found, on the functions known or on what the collector
    holds: a call of a function that is not declared produces its key all
    the same. *)
Theorem validateSteps_state order t name steps seed fns p k :
  (has (validateSteps order t name steps seed fns p).1 k
   ↔ has seed k ∨ ∃ s, s ∈ steps ∧ k ∈ step_keys s)
  ∧ (∀ order' t' name' fns' p',
     (validateSteps order' t' name' steps seed fns' p').1
     = (validateSteps order t name steps seed fns p).1)
  ∧ (∀ s fn, s ∈ steps → IsFn s = true → fn = Executable.CallableFn s →
     has (validateSteps order t name steps seed fns p).1 (produced_key fn)).
Proof.
  rewrite validateSteps_run. cbn [fst].
  assert (has (add_keys seed (concat (step_keys <$> steps))) k
          ↔ has seed k ∨ ∃ s, s ∈ steps ∧ k ∈ step_keys s) as Hiff
    by (by rewrite has_add_keys, elem_of_concat_fmap).
  split_and!.
  - done.
  - intros. by rewrite validateSteps_run.
  - intros s fn Hs HFn ->. rewrite has_add_keys, elem_of_concat_fmap.
    right. exists s. split; [done|]. unfold step_keys. rewrite HFn. left.
Qed.

(** The theorem on the schedule whose step calls a function that is not
    declared. *)
Lemma validateSteps_state_witness :
  has (validateSteps order_forward executableTypeSchedule "tick"
         (Schedule.Steps named) ∅ ∅ []).1 "nope".
Proof.
  apply (proj2 (proj2 (validateSteps_state order_forward
    executableTypeSchedule "tick" (Schedule.Steps named) ∅ ∅ [] "nope"))
    (step (call "nope")) (call "nope")); [left | reflexivity..].
Defined.

(** ** What the validator accepts *)

Lemma bind_nil {A B} (f : A → list B) (l : list A) :
  l ≫= f = [] ↔ ∀ x, x ∈ l → f x = [].
Proof.
  split.
  - intros Hnil x Hx. apply elem_of_nil_inv. intros y Hy.
    assert (y ∈ l ≫= f) as Hin by (apply list_elem_of_bind; eauto).
    rewrite Hnil in Hin. by apply elem_of_nil in Hin.
  - intros Hall. apply elem_of_nil_inv.
    intros y (x & Hy & Hx)%list_elem_of_bind.
    rewrite (Hall x Hx) in Hy. by apply elem_of_nil in Hy.
Qed.

Lemma ParseWith_bindings fn ds :
  (ParseWith fn).2 = inl ds → bindings fn = ds.
Proof.
  unfold bindings, ParseWith.
  destruct (nonempty (CallableFn.DesiredState fn)); cbn.
  - by intros [= <-].
  - destruct (parse_entries _ _ _) as [ds' [err|]]; cbn; [done|].
    by intros [= <-].
Qed.

Lemma step_shapes_disjoint s :
  IsFn s && IsGroup s = false
  ∧ IsFn s && IsForEach s = false
  ∧ IsGroup s && IsForEach s = false.
Proof.
  unfold IsFn, IsGroup, IsForEach, nonempty.
  destruct (Executable.Group s) as [[|fn g]|], (Executable.ForEach s);
    repeat case_bool_decide; done.
Qed.

Section accepted.

Context (order : MapOrder) (t : executableType) (name : string).
Context (fns : gmap string bool).

Lemma key_problems_nil j st ds :
  key_problems t name j st ds = [] ↔ ∀ d, d ∈ ds → has st (Alias.Key d).
Proof.
  unfold key_problems. rewrite bind_nil. split.
  - intros Hall d Hd. specialize (Hall d Hd).
    by destruct (has st (Alias.Key d)).
  - intros Hall d Hd. specialize (Hall d Hd).
    by destruct (has st (Alias.Key d)).
Qed.

Lemma any_problems_nil j e :
  any_problems t name j e = []
  ↔ (FnOnErr.Any e ≠ "" →
     FnOnErr.Code e = ∅ ∧ valid_directive (FnOnErr.Any e) = true).
Proof.
  unfold any_problems. rewrite <-map_size_empty_iff.
  case_bool_decide as Hany; [by split|].
  case_bool_decide as Hsize.
  - split; [done|]. intros H. destruct (H Hany) as [Hzero _]. lia.
  - destruct (valid_directive (FnOnErr.Any e)).
    + split; [|done]. intros _ _. split; [lia | done].
    + split; [done|]. intros H. by destruct (H Hany).
Qed.

Lemma other_problems_nil j e :
  other_problems t name j e = []
  ↔ (FnOnErr.Other e ≠ "" →
     FnOnErr.Code e ≠ ∅ ∧ valid_directive (FnOnErr.Other e) = true).
Proof.
  unfold other_problems. rewrite <-map_size_empty_iff.
  case_bool_decide as Hother; [by split|].
  case_bool_decide as Hsize.
  - split; [done|]. intros H. by destruct (H Hother).
  - destruct (valid_directive (FnOnErr.Other e)).
    + by split.
    + split; [done|]. intros H. by destruct (H Hother).
Qed.

Lemma code_problems_nil j (m : gmap Z string) :
  code_problems t name j (range_order order m) = []
  ↔ ∀ c v, m !! c = Some v → valid_directive v = true.
Proof.
  unfold code_problems. rewrite bind_nil. split.
  - intros Hall c v Hcv. apply (elem_of_range_order order) in Hcv.
    specialize (Hall _ Hcv). cbn in Hall. by destruct (valid_directive v).
  - intros Hall [c v] Hcv. apply elem_of_range_order in Hcv.
    cbn. by rewrite (Hall c v Hcv).
Qed.

Lemma onErr_problems_nil j e :
  onErr_problems order t name j e = [] ↔ onErr_accepted e.
Proof.
  unfold onErr_problems, onErr_accepted.
  by rewrite !app_nil, any_problems_nil, other_problems_nil, code_problems_nil.
Qed.

Lemma fn_problems_nil j st fn :
  fn_problems order t name j fns st fn = [] ↔ call_accepted fns st fn.
Proof.
  unfold fn_problems, call_accepted. rewrite !app_nil, key_problems_nil.
  split.
  - intros (Hfn & Hwith & Hkeys & HonErr). split_and!.
    + by destruct (has fns (CallableFn.Fn fn)).
    + destruct (ParseWith fn).2 as [ds|err] eqn:Hparse; [|done].
      exists ds. split; [done|]. by rewrite <-(ParseWith_bindings fn ds).
    + intros e He. rewrite He in HonErr. by apply (onErr_problems_nil j).
  - intros (Hfn & (ds & Hparse & Hkeys) & HonErr). split_and!.
    + by destruct (has fns (CallableFn.Fn fn)).
    + by rewrite Hparse.
    + by rewrite (ParseWith_bindings fn ds).
    + destruct (CallableFn.OnErr fn) as [e|]; [|done].
      by apply onErr_problems_nil, HonErr.
Qed.

Lemma step_problems_nil j s st :
  step_problems order t name fns j s st = [] ↔ step_accepted fns st s.
Proof.
  unfold step_problems, step_accepted, shape_problems, visited_calls.
  rewrite app_nil, bind_nil.
  destruct (IsFn s) eqn:HFn; cbn [negb andb orb].
  { split.
    - intros [_ Hcalls]. left. split; [done|].
      apply fn_problems_nil with j, Hcalls. left.
    - intros [[_ Hcall]|[[HGroup _]|[HEach _]]].
      + split; [done|]. intros fn ->%list_elem_of_singleton.
        by apply fn_problems_nil.
      + destruct (step_shapes_disjoint s) as (H & _). 
        by rewrite HFn, (Is_true_eq_true _ HGroup) in H.
      + destruct (step_shapes_disjoint s) as (_ & H & _).
        by rewrite HFn, (Is_true_eq_true _ HEach) in H. }
  destruct (IsGroup s) eqn:HGroup; cbn [negb andb orb].
  { split.
    - intros [_ Hcalls]. right. left. split; [done|].
      intros fn Hfn. by apply fn_problems_nil with j, Hcalls.
    - intros [[[] _]|[[_ Hcalls]|[HEach _]]].
      + split; [done|]. intros fn Hfn. by apply fn_problems_nil, Hcalls.
      + destruct (step_shapes_disjoint s) as (_ & _ & H).
        by rewrite HGroup, (Is_true_eq_true _ HEach) in H. }
  destruct (IsForEach s) eqn:HEach; cbn [negb andb orb].
  2:{ split; [by intros [? _]|]. by intros [[[] _]|[[[] _]|[[] _]]]. }
  destruct (Executable.ForEach s) as [each|] eqn:Heach.
  2:{ exfalso. unfold IsForEach in HEach. rewrite Heach in HEach.
      by rewrite bool_decide_eq_true_2 in HEach. }
  rewrite app_nil. split.
  - intros [[HAs HFnAs] Hcalls]. right. right. split; [done|].
    exists each. split; [done|].
    destruct (decide (ForEach.As each = "")) as [HAs'|HAs'];
      [by rewrite bool_decide_eq_true_2 in HAs|].
    destruct (CallableFn.With (ForEach.Fn each)) as [|w ws] eqn:Hwith;
      [|by rewrite orb_true_r in HFnAs].
    destruct (decide (CallableFn.As (ForEach.Fn each) = "")) as [HFnAs'|HFnAs'];
      [|by rewrite (bool_decide_eq_false_2 _ HFnAs') in HFnAs].
    split_and!; try done. apply fn_problems_nil with j, Hcalls. left.
  - intros [[[] _]|[[[] _]|[_ (each' & [= <-] & HAs & HFnAs & Hwith & Hcall)]]].
    split_and!.
    + by rewrite bool_decide_eq_false_2.
    + by rewrite HFnAs, Hwith.
    + intros fn ->%list_elem_of_singleton. by apply fn_problems_nil.
Qed.

Lemma steps_problems_nil seed steps :
  steps_problems order t name fns seed steps = []
  ↔ steps_accepted fns seed steps.
Proof.
  unfold steps_problems, steps_accepted. rewrite concat_imap_nil.
  split; intros Hall j s Hj.
  - by apply (step_problems_nil j), Hall.
  - by apply step_problems_nil, Hall.
Qed.

End accepted.

Lemma runnables_problems_nil rs :
  runnables_problems rs = [] ↔ runnables_accepted rs.
Proof.
  unfold runnables_problems, runnables_accepted. rewrite concat_imap_nil.
  split.
  - intros Hclean.
    assert (∀ i g, rs !! i = Some g →
      registers (fns_before rs i) g ∧ Runnable.Namespace g ≠ "") as Hreg.
    { intros i g Hi. by apply (runnable_problems_nil i), Hclean. }
    split.
    + intros g (i & Hi)%list_elem_of_lookup.
      destruct (Hreg i g Hi) as [Hr Hns].
      split; [by eapply registers_Name | done].
    + intros i j g g' Hlt Hi Hj.
      destruct (Hreg i g Hi) as [Hr _]. destruct (Hreg j g' Hj) as [Hr' _].
      unfold registers in Hr. apply andb_True in Hr as [Hr _].
      apply negb_True in Hr. rewrite orb_True in Hr.
      split; intros Hk; apply Hr; [left|right]; apply has_fns_before;
        exists j, g'; done.
  - intros [Hnames Hfresh] i g Hi. apply runnable_problems_nil.
    destruct (Hnames g) as [Hname Hns]; [by eapply list_elem_of_lookup_2|].
    split; [|done]. unfold registers. apply andb_True. split.
    + apply negb_True. rewrite orb_True.
      intros [H|H]; apply has_fns_before in H as (j & g' & Hlt & Hj & _ & Hk);
        by destruct (Hfresh i j g g' Hlt Hi Hj).
    + apply negb_True. by rewrite bool_decide_spec.
Qed.

Lemma input_problems_nil h :
  input_problems h = []
  ↔ Input.Type_ (Handler.Input h) ≠ ""
    ∧ Input.Resource (Handler.Input h) ≠ ""
    ∧ (Input.Type_ (Handler.Input h) = InputTypeRequest →
       Input.Method (Handler.Input h) ≠ "").
Proof.
  unfold input_problems. cbn zeta. rewrite !app_nil.
  repeat case_bool_decide; cbn [andb];
    (split; [intros (? & ? & ?) | intros (? & ? & Hm)]);
    try done; try (by destruct Hm).
Qed.

Lemma response_problems_nil h lastStep steps :
  response_problems h lastStep (add_keys ∅ (concat (step_keys <$> steps))) = []
  ↔ (Handler.Response h = "" → ¬ IsGroup lastStep)
    ∧ (Handler.Response h ≠ "" →
       ∃ s, s ∈ steps ∧ Handler.Response h ∈ step_keys s).
Proof.
  unfold response_problems. case_bool_decide as Hr.
  - destruct (IsGroup lastStep).
    + split; [done|]. intros [H _]. by destruct (H Hr).
    + split; [|done]. intros _. split; [by intros _ [] | done].
  - destruct (has _ _) eqn:Hhas.
    + split; [|done]. intros _. split; [done|]. intros _.
      apply Is_true_eq_left in Hhas.
      apply has_add_keys in Hhas as [Hs|Hk]; [by rewrite has_empty in Hs|].
      by apply elem_of_concat_fmap in Hk.
    + split; [done|]. intros [_ H]. destruct (H Hr) as (s & Hs & Hk).
      assert (has (add_keys ∅ (concat (step_keys <$> steps)))
                (Handler.Response h)) as Hin.
      { apply has_add_keys. right. apply elem_of_concat_fmap. eauto. }
      by rewrite Hhas in Hin.
Qed.

Lemma handler_problems_nil order fns h :
  handler_problems order fns h = [] ↔ handler_accepted fns h.
Proof.
  unfold handler_problems, handler_accepted. cbn zeta.
  rewrite app_nil, input_problems_nil.
  destruct (last (Handler.Steps h)) as [lastStep|] eqn:Hlast.
  - rewrite app_nil, steps_problems_nil, response_problems_nil. split.
    + intros ((? & ? & ?) & ? & ? & ?). split_and!; try done.
      exists lastStep. done.
    + intros (? & ? & ? & ? & lastStep' & [= <-] & ? & ?). done.
  - split; [by intros [_ ?]|].
    intros (_ & _ & _ & _ & lastStep & ? & _). done.
Qed.

Lemma every_problems_nil s : every_problems s = [] ↔ ¬ every_zero s.
Proof.
  rewrite <-every_problems_zero. unfold every_problems. cbn zeta.
  destruct (_ && _ && _ && _).
  - split; [done|]. intros H. exfalso. apply H. left.
  - split; [|done]. intros _ H. by apply elem_of_nil in H.
Qed.

Lemma schedule_problems_nil order fns i s :
  schedule_problems order fns i s = [] ↔ schedule_accepted fns s.
Proof.
  unfold schedule_problems, schedule_accepted.
  case_bool_decide as Hname; [split; [done | by intros [? _]]|].
  case_bool_decide as Hsteps.
  - split; [done|]. intros (_ & Hne & _).
    by apply length_zero_iff_nil in Hsteps.
  - rewrite app_nil, steps_problems_nil, every_problems_nil. split.
    + intros [? ?]. split_and!; try done.
      intros Hnil. apply Hsteps. by rewrite Hnil.
    + intros (_ & _ & ? & ?). done.
Qed.

Lemma document_problems_nil IsValid d :
  document_problems IsValid d = []
  ↔ Directive.Identifier d ≠ ""
    ∧ IsValid (Directive.AppVersion d) ∧ IsValid (Directive.AtmoVersion d)
    ∧ Directive.Runnables d ≠ [].
Proof.
  unfold document_problems. rewrite !app_nil.
  destruct (Directive.Runnables d) as [|g rs]; cbn [length].
  - rewrite (bool_decide_eq_true_2 (0 < 1)) by lia.
    split; [by intros (_ & _ & _ & ?) | by intros (_ & _ & _ & ?)].
  - rewrite (bool_decide_eq_false_2 (S _ < 1)) by lia.
    case_bool_decide as Hid;
      destruct (IsValid (Directive.AppVersion d)),
               (IsValid (Directive.AtmoVersion d)); cbn;
      (split; [intros (? & ? & ? & _) | intros (? & ? & ? & _)]);
      done.
Qed.

(** X11. A sequence of steps adds no defect to the collector exactly when
    every step is a call, a group or a for-each whose calls name known
    functions, have a [with] clause that parses and binds only keys of the
    seed and of the steps before, and have an [onErr] policy in order. *)
Theorem validateSteps_accepts order t name steps seed fns p :
  (validateSteps order t name steps seed fns p).2 = p
  ↔ steps_accepted fns seed steps.
Proof.
  rewrite validateSteps_run. cbn [snd].
  rewrite <-(steps_problems_nil order t name). split.
  - intros H. apply (app_inv_head p). by rewrite app_nil_r.
  - intros ->. apply app_nil_r.
Qed.

(** X12. [Validate] returns no error exactly for the documents that have
    an identifier, two valid versions, at least one runnable, runnables
    with a name and a namespace none of which takes a key of an earlier
    one, and handlers and schedules that are in order, their steps
    included — whatever the order in which the maps are ranged over. *)
Theorem Validate_accepts IsValid order d :
  (Validate IsValid order d).2 = None ↔ document_accepted IsValid d.
Proof.
  unfold Validate. cbn [snd].
  rewrite render_None, Validate_problems_eq, !app_nil, document_problems_nil,
    runnables_problems_nil, concat_fmap_nil, concat_imap_nil.
  unfold document_accepted. split.
  - intros ((? & ? & ? & ?) & ? & Hh & Hs). split_and!; try done.
    + intros h Hh'. by apply (handler_problems_nil order), Hh.
    + intros s (i & Hi)%list_elem_of_lookup.
      by apply (schedule_problems_nil order _ i), (Hs i).
  - intros (? & ? & ? & ? & ? & Hh & Hs). split_and!; try done.
    + intros h Hh'. by apply handler_problems_nil, Hh.
    + intros i s Hi. apply schedule_problems_nil, Hs.
      by eapply list_elem_of_lookup_2.
Qed.
